(** * Fable: the gacha / merge resolution engine

    A shallow embedding of the parts of the bot that carry algorithmic
    content, with the properties its specification states about them:

    - [Utils]   : [shuffle], [chunks], the weighted sampler [rng],
                  [truncate] and [diffInMinutes] (src/utils.ts);
    - [Rating]  : the star rating of a character (src/rating.ts);
    - [Packs]   : the pool builder [pool], [parseId] and [aliasToArray]
                  (src/packs.ts);
    - [Merge]   : the sacrifice grouper [getSacrifices] and
                  [getFilteredCharacters] (src/merge.ts);
    - [Db]      : the recharge of pulls [rechargePulls]
                  (db/getInventory.ts).

    JavaScript exceptions are values of [error] carried by [result];
    reads that JavaScript answers with [undefined] are [option]s. *)

From Stdlib Require Import ZArith NArith List Lia Permutation Ascii.
From stdpp Require Import base numbers option list sorting gmap strings pretty.

Set Default Proof Using "Type".
Open Scope Z_scope.

(** ** Exceptions *)

Inductive error : Type :=
  | TypeError
      (* a property read on [undefined], or [reduce] of an empty array
         without an initial value *)
  | SumError (sum : N)
      (* utils.rng: `Sum of ${chances} is ${sum} when it should be 100` *)
  | MergeNotPossible
      (* NonFetalError(i18n.get('merge-not-possible')) *)
  | MergeInsufficient (count : nat) (target : Z).
      (* NonFetalError(i18n.get('merge-insufficient', count, `${target}*`)) *)

Inductive result (A : Type) : Type :=
  | Return (a : A)
  | Throw (e : error).
Arguments Return {A} a.
Arguments Throw {A} e.

#[export] Instance result_ret : MRet result := @Return.

#[export] Instance result_bind : MBind result := fun A B k r =>
  match r with
  | Return a => k a
  | Throw e => Throw e
  end.

Definition throws {A} (r : result A) : Prop :=
  match r with Throw _ => True | Return _ => False end.

(** The value of a read, or the [TypeError] the code raises when it
    dereferences the [undefined] it got. *)
Definition defined {A} (o : option A) : result A :=
  match o with
  | Some a => Return a
  | None => Throw TypeError
  end.

(** ** src/utils.ts *)

Module Utils.

Section Shuffle.
Context {T : Type}.

(** One iteration of the loop body of [shuffle]:
      temp = array[swap]; array[swap] = array[i]; array[i] = temp;
    The loop only runs it with [swap <= i < array.length], so both
    reads are defined. *)
Definition exchange (swap i : nat) (array : list T) : list T :=
  match array !! swap, array !! i with
  | Some temp, Some ai => <[i := temp]> (<[swap := ai]> array)
  | _, _ => array
  end.

(** The [for] loop of [shuffle], from index [i], with [todo] iterations
    left.  [random i] stands for the value of [Math.random()] drawn at
    iteration [i]: [Math.floor(Math.random() * (i + 1))] ranges over
    [0..i], here [random i mod (i + 1)]. *)
Fixpoint shuffle_loop (random : nat -> nat) (i todo : nat)
    (array : list T) : list T :=
  match todo with
  | O => array
  | S todo' =>
      let swap := (random i `mod` (i + 1))%nat in
      shuffle_loop random (S i) todo' (exchange swap i array)
  end.

(** [shuffle(array)]: shuffles in place; the model returns the array's
    final contents. *)
Definition shuffle (random : nat -> nat) (array : list T) : list T :=
  shuffle_loop random 0 (length array) array.

(** [chunk] of $std/collections, exported as [utils.chunks], for a
    positive [size]: consecutive slices of [size] elements, the last one
    shorter when the length is no multiple of [size].  [fuel] bounds the
    number of slices. *)
Fixpoint chunks_fuel (fuel size : nat) (a : list T) : list (list T) :=
  match fuel with
  | O => []
  | S fuel' =>
      match a with
      | [] => []
      | _ :: _ => take size a :: chunks_fuel fuel' size (drop size a)
      end
  end.

Definition chunks (a : list T) (size : nat) : list (list T) :=
  chunks_fuel (length a) size a.
End Shuffle.

(** The weight table [{ [chance: number]: T }]: an object whose property
    names are the chances.  The names are non-negative integers, which
    [Object.keys] and [Object.values] enumerate in ascending order, and on
    which [parseInt] is the identity. *)
Definition key_le {T} : relation (N * T) := fun a b => (a.1 <= b.1)%N.

#[export] Instance key_le_dec {T} (a b : N * T) : Decision (key_le a b).
Proof. unfold key_le. apply _. Defined.

Definition Object_entries {T} (dict : gmap N T) : list (N * T) :=
  merge_sort key_le (map_to_list dict).

(** The nested loops that fill [_]: entry [i] is pushed [chances[i]]
    times. *)
Fixpoint fill (i : nat) (chances : list N) : list nat :=
  match chances with
  | [] => []
  | c :: rest => replicate (N.to_nat c) i ++ fill (S i) rest
  end.

(** [chances.reduce((a, b) => a + b)], no initial value. *)
Definition reduce_add (chances : list N) : result N :=
  match chances with
  | [] => Throw TypeError
  | c :: rest => Return (foldl N.add c rest)
  end.

(** The sum of a list of chances. *)
Definition total (chances : list N) : N := foldr N.add 0%N chances.

(** The sum of the chances of a table. *)
Definition sum_chances {T} (dict : gmap N T) : N :=
  map_fold (fun chance _ acc => chance + acc)%N 0%N dict.

(** [{ value: T; chance: number }]; a field is [None] when the code
    would store [undefined] in it. *)
Record Drawn (T : Type) : Type := { value : option T; chance : option N }.
Arguments value {T} _.
Arguments chance {T} _.

(** The array [_] of [rng] after [shuffle(_)]. *)
Definition rng_flat {T} (random : nat -> nat) (dict : gmap N T) : list nat :=
  shuffle random (fill 0 (Object_entries dict).*1).

Definition rng {T} (random : nat -> nat) (dict : gmap N T)
    : result (Drawn T) :=
  let pool := (Object_entries dict).*2 in
  let chances := (Object_entries dict).*1 in
  sum ← reduce_add chances;
  if negb (sum =? 100)%N then Throw (SumError sum)
  else
    let flat := rng_flat random dict in
    Return {| value := flat !! 0%nat ≫= fun i => pool !! i;
              chance := flat !! 0%nat ≫= fun i => chances !! i |}.

(** The table of the test 'variables' of tests/gacha.test.ts: popularity
    ranges by chance, [None] for [NaN]. *)
Definition ranges : gmap N (Z * option Z) :=
  list_to_map
    [ (65%N, (1000, Some 50000)); (22%N, (50000, Some 100000));
      (9%N, (100000, Some 200000)); (3%N, (200000, Some 400000));
      (1%N, (400000, None)) ].


(** [diffInMinutes(a, b)] on the time values of the two dates, integers
    of milliseconds: on these the floating-point division and
    [Math.floor] are the integer division. *)
Definition diffInMinutes (a b : Z) : Z := Z.abs (a - b) / 60000.

(** The draws that leave the array as it is but for iteration [p], where
    they exchange the elements at 0 and [p]. *)
Definition picking (p : nat) : nat -> nat :=
  fun i => if decide (i = p) then 0%nat else i.

(** Strings are the lists of their code units.  [s.substring(0, end)] and
    [s.slice(0, end)]: a negative [end] is 0 for the one and counts from
    the end of [s] for the other. *)
Definition substring (s : list ascii) (e : Z) : list ascii :=
  take (Z.to_nat e) s.

Definition slice (s : list ascii) (e : Z) : list ascii :=
  if e <? 0 then take (Z.to_nat (Z.of_nat (length s) + e)) s
  else take (Z.to_nat e) s.

(** [s.lastIndexOf(c)], -1 when [c] is not in [s]. *)
Fixpoint lastIndexOf (s : list ascii) (c : ascii) : Z :=
  match s with
  | [] => -1
  | x :: s' =>
      let later := lastIndexOf s' c in
      if 0 <=? later then later + 1
      else if Ascii.eqb x c then 0 else -1
  end.

(** What [if (str)] and [filter(Boolean)] take for true: a string that is
    there and is not empty. *)
Definition truthy (str : option (list ascii)) : bool :=
  match str with
  | Some (_ :: _) => true
  | _ => false
  end.

Definition truncate (str : option (list ascii)) (n : Z)
    : option (list ascii) :=
  match str with
  | Some whole =>
      if truthy str && (n <? Z.of_nat (length whole)) then
        let s := substring whole (n - 2) in
        Some (slice s (lastIndexOf s " ") ++ String.list_ascii_of_string "...")
      else str
  | None => None
  end.

End Utils.

(** ** src/rating.ts *)

Module Rating.

(** [CharacterRole] of src/types.ts, as the tests and the pool cache use
    it: 'MAIN', 'SUPPORTING', 'BACKGROUND'. *)
Inductive CharacterRole : Type := Main | Supporting | Background.

#[export] Instance CharacterRole_eq_dec : EqDecision CharacterRole.
Proof. solve_decision. Defined.

(** The argument of [new Rating({ stars, role, popularity })]. *)
Record Args : Type :=
  { fixed : option Z; role : option CharacterRole; popularity : option Z }.

(** Modelled from the spec: the class [Rating] of src/rating.ts is not
    among the sources (only its callers and its tests are).  The
    role-independent bracket of a popularity:
    <5000 -> 1, <59999 -> 2, <199999 -> 3, <399999 -> 4, else -> 5. *)
Definition bracket (p : Z) : Z :=
  if p <? 5000 then 1
  else if p <? 59999 then 2
  else if p <? 199999 then 3
  else if p <? 399999 then 4
  else 5.

(** Modelled from the spec: the role-specific shift of src/rating.ts, the
    second candidate tier.  Background never exceeds tier 2, Main adds one
    tier step (capped at 5), Supporting leaves the bracket as it is. *)
Definition shifted (r : CharacterRole) (tier : Z) : Z :=
  match r with
  | Background => Z.min tier 2
  | Main => Z.min (tier + 1) 5
  | Supporting => tier
  end.

(** Modelled from the spec: "never exceeding 5 nor going below 1". *)
Definition clamp (s : Z) : Z := Z.max 1 (Z.min 5 s).

(** Modelled from the spec: [new Rating(args).stars] of src/rating.ts.  A
    fixed value is returned clamped; otherwise the higher of the two
    candidate tiers when both apply, within 1..5.  An absent popularity
    counts as 0. *)
Definition stars (a : Args) : Z :=
  match fixed a with
  | Some s => clamp s
  | None =>
      let tier := bracket (default 0 (popularity a)) in
      match role a with
      | None => clamp tier
      | Some r => clamp (Z.max tier (shifted r tier))
      end
  end.

(** [new Rating({ role, popularity }).stars] *)
Definition rate (r : option CharacterRole) (p : Z) : Z :=
  stars {| fixed := None; role := r; popularity := Some p |}.

(** The expectations of [Deno.test('rating')] in tests/gacha.test.ts:
    role, popularity and the asserted [rating.stars]. *)
Definition fixture : list (option CharacterRole * option Z * Z) :=
  [ (Some Background, Some 1000000, 1);
    (Some Main, Some 0, 1);
    (None, Some 0, 1);
    (Some Supporting, Some 199999, 2);
    (None, Some 199999, 2);
    (Some Main, Some 199999, 3);
    (Some Supporting, Some 250000, 3);
    (None, Some 250000, 3);
    (Some Main, Some 250000, 4);
    (Some Supporting, Some 500000, 4);
    (None, Some 500000, 4);
    (Some Main, Some 400000, 5);
    (None, Some 1000000, 5);
    (Some Main, None, 1);
    (None, None, 1) ].

Definition agrees (row : option CharacterRole * option Z * Z) : bool :=
  let '(r, p, expected) := row in
  bool_decide (stars {| fixed := None; role := r; popularity := p |} = expected).

End Rating.

(** ** src/packs.ts *)

Module Packs.

(** An element of [Pool['']['ALL']]. *)
Record PoolEntry : Type :=
  { id : string; mediaId : string; rating : Z }.

#[export] Instance PoolEntry_eq_dec : EqDecision PoolEntry.
Proof. solve_decision. Defined.

(** One value of the cache packs/anilist/pool.json. *)
Record Bucket : Type :=
  { ALL : list PoolEntry;
    MAIN : list PoolEntry;
    SUPPORTING : list PoolEntry;
    BACKGROUND : list PoolEntry }.

(** The parsed cache, an object keyed by [JSON.stringify(range)]: its
    properties in the order [Object.values] enumerates them. *)
Definition Pool : Type := list (string * Bucket).

Definition property (key : string) (anilist : Pool) : option Bucket :=
  snd <$> List.find (fun kv => bool_decide (kv.1 = key)) anilist.

(** Numbers are doubles.  The integer held by the double nearest to a
    non-negative integer [z], ties to even: the number a literal of value
    [z] denotes.  From [2 ^ 1024] on it stands for [Infinity]. *)
Definition nearest (z : Z) : Z :=
  let shift := Z.log2 z - 52 in
  if shift <=? 0 then z
  else
    let q := Z.shiftr z shift in
    let r := z - Z.shiftl q shift in
    let half := Z.shiftl 1 (shift - 1) in
    Z.shiftl (if (half <? r) || ((half =? r) && Z.odd q) then q + 1 else q)
      shift.

(** [Number::toString] of ECMAScript on a positive integer double [x]
    writes the digits [s] with the fewest digits such that [s * 10 ^ e] is
    the number [x] again, the closest to [x] among them (the even one on a
    tie).  [shortest_at x e] is that [s] for the exponent [e], if there is
    one: only the two multiples of [10 ^ e] around [x] can be. *)
Definition shortest_at (x e : Z) : option (Z * Z) :=
  let low := x / 10 ^ e in
  let high := low + 1 in
  let below := x - low * 10 ^ e in
  let above := high * 10 ^ e - x in
  match nearest (low * 10 ^ e) =? x, nearest (high * 10 ^ e) =? x with
  | true, true =>
      Some (if (below <? above) || ((below =? above) && Z.even low)
            then low else high, e)
  | true, false => Some (low, e)
  | false, true => Some (high, e)
  | false, false => None
  end.

(** The exponents from the highest down, that is one digit, then two, up
    to the 17 that tell any two doubles apart. *)
Fixpoint shortest (fuel : nat) (x e : Z) : Z * Z :=
  match fuel with
  | O => (x, 0)
  | S fuel' =>
      if e <? 0 then (x, 0)
      else
        match shortest_at x e with
        | Some found => found
        | None => shortest fuel' x (e - 1)
        end
  end.

(** [s] is not divisible by 10: its last zeros go to the exponent. *)
Fixpoint strip (fuel : nat) (s e : Z) : Z * Z :=
  match fuel with
  | O => (s, e)
  | S fuel' =>
      if (0 <? s) && (s mod 10 =? 0) then strip fuel' (s / 10) (e + 1)
      else (s, e)
  end.

Fixpoint zeros (n : nat) : string :=
  match n with
  | O => ""
  | S n' => "0" +:+ zeros n'
  end.

(** The digits followed by zeros up to 21 digits, [d.ddde+n] beyond. *)
Definition Number_toString (x : Z) : string :=
  let digits := Z.of_nat (String.length (pretty x)) in
  let '(s, e) := shortest 17 x (digits - 1) in
  let '(s, e) := strip 17 s e in
  let n := Z.of_nat (String.length (pretty s)) + e in
  if n <=? 21 then pretty s +:+ zeros (Z.to_nat e)
  else
    match pretty s with
    | String d EmptyString => String d "e+" +:+ pretty (n - 1)
    | String d rest => String d ("." +:+ rest) +:+ "e+" +:+ pretty (n - 1)
    | EmptyString => ""
    end.

(** [JSON.stringify] of a [number[]] of integers; [None] is [NaN], printed
    [null] as the infinities are. *)
Definition JSON_number (n : option Z) : string :=
  match n with
  | Some z =>
      let x := nearest (Z.abs z) in
      if 2 ^ 1024 <=? x then "null"
      else if x =? 0 then "0"
      else (if z <? 0 then "-" else "") +:+ Number_toString x
  | None => "null"
  end.

Definition JSON_stringify (range : option (list (option Z))) : string :=
  match range with
  | Some r => "[" +:+ String.concat "," (JSON_number <$> r) +:+ "]"
  | None => "undefined"
  end.

(** [anilist[...][role ?? 'ALL']] *)
Definition bucket (role : option Rating.CharacterRole) (b : Bucket)
    : list PoolEntry :=
  match role with
  | None => ALL b
  | Some Rating.Main => MAIN b
  | Some Rating.Supporting => SUPPORTING b
  | Some Rating.Background => BACKGROUND b
  end.

(** The property names every object literal inherits from
    [Object.prototype]; a read of one of them on [occurrences] is truthy
    whatever was stored. *)
Definition Object_prototype : list string :=
  [ "constructor"; "__defineGetter__"; "__defineSetter__"; "hasOwnProperty";
    "__lookupGetter__"; "__lookupSetter__"; "isPrototypeOf";
    "propertyIsEnumerable"; "toString"; "valueOf"; "__proto__";
    "toLocaleString" ].

Definition inherited (key : string) : bool :=
  bool_decide (key ∈ Object_prototype).

(** [occurrences[mediaId]] as a condition. *)
Definition seen (occurrences : gmap string bool) (key : string) : bool :=
  inherited key || default false (occurrences !! key).

(** The callback of [pool.filter], threading [occurrences]. *)
Fixpoint filter_pool (stars : option Z) (occurrences : gmap string bool)
    (pool : list PoolEntry) : list PoolEntry :=
  match pool with
  | [] => []
  | e :: rest =>
      if match stars with
         | Some s => negb (rating e =? s)
         | None => false
         end
      then filter_pool stars occurrences rest
      else if seen occurrences (mediaId e)
      then filter_pool stars occurrences rest
      else e :: filter_pool stars (<[mediaId e := true]> occurrences) rest
  end.

(** The candidates read from the cache: every bracket's [ALL] when
    [stars] is a number, one bucket of one bracket otherwise. *)
Definition cached (anilist : Pool) (range : option (list (option Z)))
    (role : option Rating.CharacterRole) (stars : option Z)
    : result (list PoolEntry) :=
  match stars with
  | Some _ => Return (foldl (fun pool range => pool ++ ALL range) [] anilist.*2)
  | None =>
      b ← defined (property (JSON_stringify range) anilist);
      Return (bucket role b)
  end.

(** The array [pool] before the shuffle: the cached candidates, then the
    characters of every installed pack.  [installed] holds, for each
    installed pack with characters, the entries of its characters that
    have a media, in the order their [pool.concat] runs (what
    [packs.all({ guildId })] and [packs.aggregate] yield for the guild). *)
Definition candidates (anilist : Pool) (installed : list (list PoolEntry))
    (range : option (list (option Z)))
    (role : option Rating.CharacterRole) (stars : option Z)
    : result (list PoolEntry) :=
  pool ← cached anilist range role stars;
  Return (foldl (fun pool characters => pool ++ characters) pool installed).

(** [pool({ guildId, range, role, stars })]; [anilist] is the parsed
    cache and [random] drives the shuffle. *)
Definition pool (random : nat -> nat) (anilist : Pool)
    (installed : list (list PoolEntry))
    (range : option (list (option Z)))
    (role : option Rating.CharacterRole) (stars : option Z)
    : result (list PoolEntry) :=
  pool ← candidates anilist installed range role stars;
  let pool := Utils.shuffle random pool in
  Return (filter_pool stars ∅ pool).

(** An entry gets past the first test of the filter. *)
Definition wanted (stars : option Z) (e : PoolEntry) : Prop :=
  match stars with
  | Some s => rating e = s
  | None => True
  end.

(** A cache of one bracket, two of whose characters share a media. *)
Definition sample_cache : Pool :=
  [ ("[1000,50000]",
     {| ALL := [ {| id := "anilist:1"; mediaId := "anilist:10"; rating := 1 |};
                 {| id := "anilist:2"; mediaId := "anilist:10"; rating := 2 |};
                 {| id := "anilist:3"; mediaId := "anilist:11"; rating := 1 |} ];
        MAIN := [ {| id := "anilist:1"; mediaId := "anilist:10"; rating := 1 |} ];
        SUPPORTING := [ {| id := "anilist:2"; mediaId := "anilist:10"; rating := 2 |} ];
        BACKGROUND := [ {| id := "anilist:3"; mediaId := "anilist:11"; rating := 1 |} ] |}) ].

Definition sample_pack : list PoolEntry :=
  [ {| id := "vtubers:1"; mediaId := "vtubers:7"; rating := 3 |} ].

(** The class [[-_a-z0-9]] and the pattern [/^([-_a-z0-9]+)$/]. *)
Definition word (c : ascii) : bool :=
  Ascii.eqb c "-" || Ascii.eqb c "_"
  || (Ascii.leb "a" c && Ascii.leb c "z")
  || (Ascii.leb "0" c && Ascii.leb c "9").

Definition words (s : list ascii) : bool :=
  match s with
  | [] => false
  | _ => forallb word s
  end.

(** The units before the first colon and, when there is one, those after
    it. *)
Fixpoint break (literal : list ascii) : list ascii * option (list ascii) :=
  match literal with
  | [] => ([], None)
  | c :: rest =>
      if Ascii.eqb c ":" then ([], Some rest)
      else let '(before, after) := break rest in (c :: before, after)
  end.

(** [/^([-_a-z0-9]+):([-_a-z0-9]+)$/.exec(literal)]: the two groups of a
    match.  No unit of the class is a colon, so the first group ends at the
    first colon. *)
Definition exec (literal : list ascii) : option (list ascii * list ascii) :=
  match break literal with
  | (packId, Some rest) =>
      if words packId && words rest then Some (packId, rest) else None
  | (_, None) => None
  end.

Definition parseId (literal : list ascii) (defaultPackId : option (list ascii))
    : option (list ascii) * option (list ascii) :=
  match exec literal with
  | Some (packId, rest) => (Some packId, Some rest)
  | None =>
      if Utils.truthy defaultPackId && words literal
      then (defaultPackId, Some literal)
      else (None, None)
  end.

(** [Array.from(new Set(array))]: the elements of [array] in the order in
    which they first occur. *)
Definition Array_from_Set {A} `{EqDecision A} (array : list A) : list A :=
  foldl (fun set x => if decide (x ∈ set) then set else set ++ [x]) [] array.

Record Alias := {
  english : option (list ascii);
  romaji : option (list ascii);
  native : option (list ascii);
  alternative : option (list (list ascii))
}.

(** The array [aliasToArray] filters: the three names, then the
    alternatives. *)
Definition names (alias : Alias) : list (option (list ascii)) :=
  [english alias; romaji alias; native alias]
    ++ (Some <$> default [] (alternative alias)).

(** [max ? utils.truncate(str, max) : str], [max] being [None] when it is
    left out. *)
Definition shortened (max : option Z) (str : option (list ascii))
    : option (list ascii) :=
  match max with
  | Some n => if n =? 0 then str else Utils.truncate str n
  | None => str
  end.

Definition aliasToArray (alias : Alias) (max : option Z)
    : list (option (list ascii)) :=
  Array_from_Set
    (shortened max <$> filter (fun str => Utils.truthy str = true) (names alias)).

End Packs.

(** ** src/merge.ts *)

Module Merge.

(** A [Deno.KvEntry<Schema.Character>], reduced to the fields
    [getSacrifices] and its tests read: [value.id], [value.rating]. *)
Record Character : Type := { id : string; rating : Z }.

#[export] Instance Character_eq_dec : EqDecision Character.
Proof. solve_decision. Defined.

(** [mode: 'target' | 'min' | 'max'] *)
Inductive Mode : Type := target | min | max.

(** [array.forEach(f)] for a callback that updates captured state and may
    throw. *)
Fixpoint forEach {A S : Type} (f : S -> A -> result S) (array : list A)
    (s : S) : result S :=
  match array with
  | [] => Return s
  | a :: rest => s' ← f s a; forEach f rest s'
  end.

(** [characters.toSorted((a, b) => a.value.rating - b.value.rating)]:
    a stable sort into a fresh array.  [toSorted] answers with the
    receiver as the call leaves it and the sorted copy. *)
Fixpoint insert (c : Character) (sorted : list Character) : list Character :=
  match sorted with
  | [] => [c]
  | d :: rest =>
      if rating c <=? rating d then c :: d :: rest else d :: insert c rest
  end.

Definition sorted (characters : list Character) : list Character :=
  foldr insert [] characters.

Definition toSorted (characters : list Character)
    : list Character * list Character :=
  (characters, sorted characters).

(** [{ 1: [], 2: [], 3: [], 4: [], 5: [] }] *)
Definition empty_record {A : Type} : gmap Z (list A) :=
  <[1 := []]> (<[2 := []]> (<[3 := []]> (<[4 := []]> (<[5 := []]> ∅)))).

(** [record[key].push(...items)] *)
Definition push {A : Type} (record : gmap Z (list A)) (key : Z)
    (items : list A) : result (gmap Z (list A)) :=
  array ← defined (record !! key);
  Return (<[key := array ++ items]> record).

(** Records with exactly the keys 1..5, and the array under a key. *)
Definition tiers {A} (record : gmap Z (list A)) : Prop :=
  forall k, is_Some (record !! k) <-> 1 <= k <= 5.

Definition tier {A} (record : gmap Z (list A)) (k : Z) : list A :=
  default [] (record !! k).

(** What a record holds under the keys [1..n], in that order. *)
Fixpoint upto {A} (record : gmap Z (list A)) (n : nat) : list A :=
  match n with
  | O => []
  | S m => upto record m ++ tier record (Z.of_nat (S m))
  end.

Definition supply {A} (record : gmap Z (list A)) (k : Z) : list A :=
  upto record (Z.to_nat k).

(** What holds of [possibilities] when the callback is about to run for
    [i]: the tiers below [i] are folded from the characters rated up to
    them, the others are still empty, and tier 1 holds single
    characters. *)
Definition folded (split : gmap Z (list Character)) (i : Z)
    (possibilities : gmap Z (list (list Character))) : Prop :=
  tiers possibilities /\
  (forall j, 1 <= j < i ->
     concat (tier possibilities j) ⊆+ supply split j) /\
  (forall j, i <= j -> tier possibilities j = []) /\
  Forall (fun group => length group = 1%nat) (tier possibilities 1).

(** [split[char.value.rating === 5 ? 4 : char.value.rating].push(char)] *)
Definition separate (split : gmap Z (list Character)) (char : Character)
    : result (gmap Z (list Character)) :=
  push split (if rating char =? 5 then 4 else rating char) [char].

(** [target && possibilities[target].length] *)
Definition reached (target : option Z)
    (possibilities : gmap Z (list (list Character))) : result bool :=
  match target with
  | None => Return false
  | Some t =>
      if t =? 0 then Return false
      else
        p ← defined (possibilities !! t);
        Return (negb (length p =? 0)%nat)
  end.

(** The callback of [[1, 2, 3, 4, 5].forEach]. *)
Definition fold_tier (split : gmap Z (list Character)) (target : option Z)
    (possibilities : gmap Z (list (list Character))) (i : Z)
    : result (gmap Z (list (list Character))) :=
  stop ← reached target possibilities;
  if (stop : bool) then Return possibilities
  else
    possibilities ←
      (if 1 <? i then
         previous ← defined (possibilities !! (i - 1));
         let whole := (length previous / 5)%nat in
         push possibilities i
           ((fun t => concat t) <$> take whole (Utils.chunks previous 5))
       else Return possibilities);
    own ← defined (split !! i);
    push possibilities i ((fun c => [c]) <$> own).

(** [possibilities[n].findIndex((t) => t.length >= 5)], with the element
    found; [None] is [-1]. *)
Definition findIndex (groups : list (list Character))
    : option (nat * list Character) :=
  list_find (fun t => (5 <= length t)%nat) groups.

(** The callback of [[5, 4, 3, 2].forEach] and [[2, 3, 4, 5].forEach]. *)
Definition select (possibilities : gmap Z (list (list Character)))
    (target : option Z) (n : Z) : result (option Z) :=
  p ← defined (possibilities !! n);
  Return (if findIndex p is Some _ then Some n else target).

Definition possibilities_of (split : gmap Z (list Character))
    (target : option Z) : result (gmap Z (list (list Character))) :=
  forEach (fold_tier split target) [1; 2; 3; 4; 5] empty_record.

(** The record [possibilities] once both [forEach] have run. *)
Definition grouped (sorted : list Character) (target : option Z)
    : result (gmap Z (list (list Character))) :=
  split ← forEach separate sorted empty_record;
  possibilities_of split target.

(** The [switch], the two [throw]s and the [return]. *)
Definition chosen (possibilities : gmap Z (list (list Character)))
    (mode : Mode) (target : option Z) : result (list Character * Z) :=
  target ←
    match mode with
    | min => forEach (select possibilities) [5; 4; 3; 2] target
    | max => forEach (select possibilities) [2; 3; 4; 5] target
    | target => Return target
    end;
  match target with
  | None => Throw MergeNotPossible
  | Some t =>
      if t =? 0 then Throw MergeNotPossible
      else
        p ← defined (possibilities !! t);
        match findIndex p with
        | None =>
            previous ← defined (possibilities !! (t - 1));
            Throw (MergeInsufficient (length previous) t)
        | Some (index, group) => Return (group, t)
        end
  end.

Definition getSacrifices_body (sorted : list Character) (mode : Mode)
    (target : option Z) : result (list Character * Z) :=
  possibilities ← grouped sorted target;
  chosen possibilities mode target.

(** [getSacrifices(characters, mode, target)]: the array [characters] as
    the call leaves it, and the outcome. *)
Definition getSacrifices (characters : list Character) (mode : Mode)
    (target : option Z) : list Character * result (list Character * Z) :=
  let '(characters, sorted) := toSorted characters in
  (characters, getSacrifices_body sorted mode target).

(** The collections of tests/merge.test.ts:
    [Array(n).fill({}).map((_, i) => ({ value: { rating, id: `id:${i}` } }))],
    numbered from [first]. *)
Definition fixture (first n : nat) (rating : Z) : list Character :=
  (fun i => {| id := "id:" +:+ pretty i; rating := rating |}) <$> seq first n.

Definition ones25 : list Character := fixture 0 25 1.

(** 4 fours + 1 five *)
Definition fours_and_five : list Character := fixture 0 4 4 ++ fixture 4 1 5.

(** 5 twos *)
Definition five_twos : list Character := fixture 0 5 2.

(** The targets a caller can pass: none, 0, or a rating. *)
Definition targeted (target : option Z) : Prop :=
  match target with
  | Some t => 0 <= t <= 5
  | None => True
  end.

(** The ratings a character can have. *)
Definition rated (c : Character) : Prop := 1 <= rating c <= 5.

(** The key of [split] a character is pushed under. *)
Definition bucket (c : Character) : Z :=
  if rating c =? 5 then 4 else rating c.

(** What the callback of [[1, 2, 3, 4, 5].forEach] pushes first for
    [i > 1]: the whole chunks of five possibilities of the tier below,
    each flattened. *)
Definition promoted (previous : list (list Character))
    : list (list Character) :=
  (fun t => concat t) <$>
    take (length previous / 5) (Utils.chunks previous 5).

(** Tier [n] of [possibilities] when the loop runs its callback in full up
    to [n]. *)
Fixpoint complete (split : gmap Z (list Character)) (n : nat)
    : list (list Character) :=
  match n with
  | O => []
  | S m =>
      (if 1 <? Z.of_nat (S m) then promoted (complete split m) else []) ++
      ((fun c => [c]) <$> tier split (Z.of_nat (S m)))
  end.

(** What holds of [possibilities] when the callback is about to run for
    [i]: the tiers up to some [s] are complete, the others are still empty,
    and the loop stopped building once the target was reached. *)
Definition built (split : gmap Z (list Character)) (target : option Z)
    (i : Z) (possibilities : gmap Z (list (list Character))) : Prop :=
  tiers possibilities /\
  exists s : nat,
    Z.of_nat s < i /\
    (forall j : nat, (1 <= j <= s)%nat ->
       tier possibilities (Z.of_nat j) = complete split j) /\
    (forall j : Z, Z.of_nat s < j -> tier possibilities j = []) /\
    (Z.of_nat s < i - 1 -> reached target possibilities = Return true).

(** Tier [n] has a possibility of five characters or more when nothing
    cuts the loop short. *)
Definition viable (split : gmap Z (list Character)) (n : Z) : bool :=
  bool_decide (is_Some (findIndex (complete split (Z.to_nat n)))).

(** The target 'min' and 'max' resolve, from the tiers in the order the
    code visits them: the last viable one. *)
Definition resolved (split : gmap Z (list Character)) (order : list Z)
    : option Z :=
  foldl (fun target n => if viable split n then Some n else target) None order.

(** What a character counts for in a merge: a character kept under key
    [k] of [split] stands for [5 ^ (k - 1)] characters rated 1. *)
Definition worth (c : Character) : nat := (5 ^ (Z.to_nat (bucket c) - 1))%nat.

Definition total_worth (group : list Character) : nat :=
  sum_list_with worth group.

(** An element of [user.likes]. *)
Record Like : Type :=
  { characterId : option string; mediaId : option string }.

(** [Schema.Party], as [db.getUserParty] answers. *)
Record Party : Type :=
  { member1 : option Character;
    member2 : option Character;
    member3 : option Character;
    member4 : option Character;
    member5 : option Character }.

(** [[party.member1?.id, ..., party.member5?.id]] *)
Definition partyIds (party : Party) : list (option string) :=
  [ id <$> member1 party; id <$> member2 party; id <$> member3 party;
    id <$> member4 party; id <$> member5 party ].

(** [likes?.map(({ characterId, mediaId }) => characterId ?? mediaId)] *)
Definition likesIds (likes : list Like) : list (option string) :=
  (fun like =>
     match characterId like with
     | Some c => Some c
     | None => mediaId like
     end) <$> likes.

(** [getFilteredCharacters({ userId, guildId })], from what the store
    answers for the user and the guild: [user.likes], the party and the
    characters of the inventory. *)
Definition getFilteredCharacters (likes : option (list Like)) (party : Party)
    (characters : list Character) : list Character :=
  let likes := default [] likes in
  filter
    (fun char =>
       (Some (id char) ∉ partyIds party) /\ (Some (id char) ∉ likesIds likes))
    characters.


(** The members of a party. *)
Definition members (party : Party) : list (option Character) :=
  [ member1 party; member2 party; member3 party; member4 party;
    member5 party ].

(** A party and likes for the characters of tests/merge.test.ts. *)
Definition sample_party : Party :=
  {| member1 := Some {| id := "id:0"; rating := 4 |};
     member2 := None; member3 := None; member4 := None; member5 := None |}.

Definition sample_likes : list Like :=
  [ {| characterId := Some "id:1"; mediaId := None |};
    {| characterId := None; mediaId := Some "media_id" |} ].

End Merge.

(** ** db/getInventory.ts *)

Module Db.

Definition MAX_PULLS : Z := 5.
Definition MAX_NEW_PULLS : Z := 10.
Definition RECHARGE_MINS : Z := 30.

(** A [Schema.Inventory], reduced to the fields [rechargePulls] reads and
    writes; [rechargeTimestamp] is the time value of the ISO string. *)
Record Inventory : Type :=
  { availablePulls : Z; rechargeTimestamp : option Z }.

#[export] Instance Inventory_eq_dec : EqDecision Inventory.
Proof. solve_decision. Defined.

(** One round of the loop of [rechargePulls]: what [db.getInventory]
    answers, the time value of [new Date()] during the round, and what
    [commit()] answers when the round reaches it. *)
Record Attempt : Type :=
  { stored : Inventory; now : Z; ok : bool }.

(** What [rechargePulls] leaves: the inventory it returns and whether a
    commit went through, or [KvError('failed to update inventory')]. *)
Inductive Outcome : Type :=
  | Returned (inventory : Inventory) (written : bool)
  | KvError.

Section Recharge.
(** [date.setMinutes(date.getMinutes() + minutes)]: the time value of the
    date moved by that many minutes of local time. *)
Variable plusMinutes : Z -> Z -> Z.

(** [inventory.rechargeTimestamp ? new Date(...) : new Date()] *)
Definition since (inventory : Inventory) (now : Z) : Z :=
  default now (rechargeTimestamp inventory).

Definition newPulls (inventory : Inventory) (now : Z) : Z :=
  Z.max 0
    (Z.min (MAX_PULLS - availablePulls inventory)
       (Z.quot (Utils.diffInMinutes (since inventory now) now) RECHARGE_MINS)).

(** The body of the loop up to [if (!commit)]: [None] when it returns the
    inventory as it was read ([newPulls === currentPulls]), the updated
    inventory otherwise. *)
Definition recharged (inventory : Inventory) (now : Z) : option Inventory :=
  let currentPulls := availablePulls inventory in
  let newPulls := newPulls inventory now in
  if newPulls =? currentPulls then None
  else
    let rechargedPulls := currentPulls + newPulls in
    Some
      {| availablePulls := Z.min 99 rechargedPulls;
         rechargeTimestamp :=
           if MAX_PULLS <=? rechargedPulls then None
           else Some (plusMinutes (since inventory now)
                        (newPulls * RECHARGE_MINS)) |}.

(** A round that ends in [retires += 1]: it is to commit, it has an
    update to commit, and the commit is refused. *)
Definition retried (commit : bool) (a : Attempt) : Prop :=
  commit = true /\ recharged (stored a) (now a) <> None /\ ok a = false.

(** [while (!res.ok && retires < 5)], with [left = 5 - retires] rounds to
    go. *)
Fixpoint rechargePulls_loop (commit : bool) (attempt : nat -> Attempt)
    (retires left : nat) : Outcome :=
  match left with
  | O => KvError
  | S left' =>
      let a := attempt retires in
      match recharged (stored a) (now a) with
      | None => Returned (stored a) false
      | Some inventory =>
          if negb commit then Returned inventory false
          else if ok a then Returned inventory true
          else rechargePulls_loop commit attempt (S retires) left'
      end
  end.

(** [rechargePulls(instance, user, commit)] *)
Definition rechargePulls (commit : bool) (attempt : nat -> Attempt) : Outcome :=
  rechargePulls_loop commit attempt 0 5.
End Recharge.

(** The pulls an inventory has once a round is over. *)
Definition pulls_after (inventory : Inventory) (after : option Inventory) : Z :=
  availablePulls (default inventory after).

End Db.

(** * Properties *)

(** ** The shuffle is a permutation *)

Section ShuffleFacts.
Context {T : Type}.
Implicit Types (l array : list T) (x y : T).

Lemma overwrite_Permutation l j x y :
  l !! j = Some y -> y :: <[j := x]> l ≡ₚ x :: l.
Proof.
  revert j. induction l as [|a l IH]; intros [|j] Hj; simplify_eq/=.
  - apply perm_swap.
  - rewrite perm_swap, (IH j Hj). apply perm_swap.
Qed.

Lemma exchange_Permutation swap i array :
  Utils.exchange swap i array ≡ₚ array.
Proof.
  unfold Utils.exchange.
  destruct (array !! swap) as [temp|] eqn:Hswap; [|done].
  destruct (array !! i) as [ai|] eqn:Hi; [|done].
  revert swap i Hswap Hi.
  induction array as [|a array IH]; intros [|swap] [|i] Hswap Hi;
    simplify_eq/=; try done.
  - by apply overwrite_Permutation.
  - by apply overwrite_Permutation.
  - by rewrite IH.
Qed.

Lemma shuffle_loop_Permutation random i todo array :
  Utils.shuffle_loop random i todo array ≡ₚ array.
Proof.
  revert i array. induction todo as [|todo IH]; intros i array; simpl.
  - done.
  - by rewrite IH, exchange_Permutation.
Qed.

Lemma shuffle_Permutation random array :
  Utils.shuffle random array ≡ₚ array.
Proof. apply shuffle_loop_Permutation. Qed.

Lemma shuffle_length random array :
  length (Utils.shuffle random array) = length array.
Proof. apply Permutation_length, shuffle_Permutation. Qed.

Lemma shuffle_elem_of random array x :
  x ∈ Utils.shuffle random array <-> x ∈ array.
Proof. by rewrite shuffle_Permutation. Qed.
End ShuffleFacts.

(** ** The weighted sampler *)

Section RngFacts.
Context {T : Type}.
Implicit Types (dict : gmap N T) (chances : list N).

Abbreviation total := Utils.total.

Lemma fill_length i chances :
  length (Utils.fill i chances) = N.to_nat (total chances).
Proof.
  revert i. induction chances as [|c rest IH]; intros i; simpl; [done|].
  rewrite length_app, length_replicate, IH. unfold total. lia.
Qed.

Lemma fill_elem_of i chances k :
  k ∈ Utils.fill i chances -> (i <= k < i + length chances)%nat.
Proof.
  revert i. induction chances as [|c rest IH]; intros i; simpl.
  - by intros ?%elem_of_nil.
  - rewrite elem_of_app. intros [->%elem_of_replicate_inv|Hk%IH]; lia.
Qed.

Lemma reduce_add_total c rest :
  Utils.reduce_add (c :: rest) = Return (total (c :: rest)).
Proof.
  simpl. f_equal. revert c.
  induction rest as [|d rest IH]; intros c; simpl; [lia|].
  rewrite IH. simpl. lia.
Qed.

Lemma Object_entries_Permutation dict :
  Utils.Object_entries dict ≡ₚ map_to_list dict.
Proof. apply merge_sort_Permutation. Qed.

Lemma Object_entries_lookup dict c v :
  (c, v) ∈ Utils.Object_entries dict <-> dict !! c = Some v.
Proof. by rewrite Object_entries_Permutation, elem_of_map_to_list. Qed.

Lemma Object_entries_nil dict : Utils.Object_entries dict = [] <-> dict = ∅.
Proof.
  split.
  - intros H. apply map_to_list_empty_iff, Permutation_nil_r.
    by rewrite <- Object_entries_Permutation, H.
  - intros ->. unfold Utils.Object_entries. by rewrite map_to_list_empty.
Qed.

Lemma total_Permutation chances1 chances2 :
  chances1 ≡ₚ chances2 -> total chances1 = total chances2.
Proof.
  induction 1; simpl; unfold total in *; simpl; try lia.
Qed.

Lemma sum_chances_total dict :
  Utils.sum_chances dict = total (Utils.Object_entries dict).*1.
Proof.
  unfold Utils.sum_chances. rewrite map_fold_foldr.
  rewrite (total_Permutation _ (map_to_list dict).*1)
    by (by rewrite Object_entries_Permutation).
  induction (map_to_list dict) as [|[c v] l IH]; simpl; [done|].
  by rewrite IH.
Qed.

(** The three outcomes of [rng]. *)
Lemma rng_empty random : Utils.rng random (∅ : gmap N T) = Throw TypeError.
Proof.
  unfold Utils.rng, Utils.Object_entries. by rewrite map_to_list_empty.
Qed.

Lemma rng_sum_error random dict :
  dict <> ∅ -> Utils.sum_chances dict <> 100%N ->
  Utils.rng random dict = Throw (SumError (Utils.sum_chances dict)).
Proof.
  intros Hne Hsum. rewrite sum_chances_total in *. unfold Utils.rng.
  destruct ((Utils.Object_entries dict).*1) as [|c rest] eqn:Hkeys.
  - apply fmap_nil_inv, Object_entries_nil in Hkeys. done.
  - rewrite reduce_add_total. cbn [mbind result_bind].
    destruct (N.eqb_spec (total (c :: rest)) 100) as [?|?]; [done|].
    done.
Qed.

Lemma rng_sum_100 random dict :
  Utils.sum_chances dict = 100%N ->
  length (Utils.rng_flat random dict) = 100%nat /\
  exists i c v,
    Utils.rng_flat random dict !! 0%nat = Some i /\
    (Utils.Object_entries dict).*1 !! i = Some c /\
    (Utils.Object_entries dict).*2 !! i = Some v /\
    Utils.rng random dict = Return {| Utils.value := Some v; Utils.chance := Some c |} /\
    dict !! c = Some v.
Proof.
  intros Hsum. rewrite sum_chances_total in Hsum.
  assert (Hlen : length (Utils.rng_flat random dict) = 100%nat).
  { unfold Utils.rng_flat. rewrite shuffle_length, fill_length, Hsum. done. }
  split; [done|].
  destruct (lookup_lt_is_Some_2 (Utils.rng_flat random dict) 0) as [i Hi];
    [lia|].
  assert (Hin : i ∈ Utils.fill 0 (Utils.Object_entries dict).*1).
  { eapply shuffle_elem_of, list_elem_of_lookup_2, Hi. }
  apply fill_elem_of in Hin. rewrite length_fmap in Hin.
  destruct (lookup_lt_is_Some_2 (Utils.Object_entries dict) i) as [[c v] Hcv];
    [lia|].
  exists i, c, v.
  assert (Hc : (Utils.Object_entries dict).*1 !! i = Some c)
    by (by rewrite list_lookup_fmap, Hcv).
  assert (Hv : (Utils.Object_entries dict).*2 !! i = Some v)
    by (by rewrite list_lookup_fmap, Hcv).
  split_and!; try done.
  - unfold Utils.rng.
    destruct ((Utils.Object_entries dict).*1) as [|c0 rest] eqn:Hkeys;
      [done|].
    rewrite reduce_add_total, Hsum. cbn [mbind result_bind]. simpl.
    rewrite Hi. simpl. by rewrite Hc, Hv.
  - by eapply Object_entries_lookup, list_elem_of_lookup_2.
Qed.

Lemma rng_throws_iff random dict :
  throws (Utils.rng random dict) <-> Utils.sum_chances dict <> 100%N.
Proof.
  split.
  - intros Hthrow Hsum.
    destruct (rng_sum_100 random dict Hsum) as (_ & i & c & v & _ & _ & _ & Hr & _).
    by rewrite Hr in Hthrow.
  - intros Hsum. destruct (decide (dict = ∅)) as [->|Hne].
    + by rewrite rng_empty.
    + by rewrite rng_sum_error.
Qed.


(** C10.  When [rng] does not throw, the shuffled array [_] has exactly
    100 elements, its first element is an index of the table's entries,
    and the pair returned is the chance and the value of that entry: the
    chance is a key of the table and the value is the one under it. *)
Theorem rng_in_bounds random dict :
  ~ throws (Utils.rng random dict) ->
  length (Utils.rng_flat random dict) = 100%nat /\
  exists i c v,
    Utils.rng_flat random dict !! 0%nat = Some i /\
    (i < length (Utils.Object_entries dict))%nat /\
    (Utils.Object_entries dict).*1 !! i = Some c /\
    (Utils.Object_entries dict).*2 !! i = Some v /\
    Utils.rng random dict =
      Return {| Utils.value := Some v; Utils.chance := Some c |} /\
    dict !! c = Some v.
Proof.
  intros Hreturns.
  assert (Hsum : Utils.sum_chances dict = 100%N).
  { destruct (decide (Utils.sum_chances dict = 100%N)) as [|Hne]; [done|].
    by apply (rng_throws_iff random) in Hne. }
  destruct (rng_sum_100 random dict Hsum)
    as (Hlen & i & c & v & H0 & Hc & Hv & Hr & Hd).
  split; [done|]. exists i, c, v. split_and!; try done.
  apply lookup_lt_Some in Hc. by rewrite length_fmap in Hc.
Qed.
End RngFacts.

Lemma rng_in_bounds_witness :
  length (Utils.rng_flat (fun i => i) Utils.ranges) = 100%nat /\
  exists i c v,
    Utils.rng_flat (fun i => i) Utils.ranges !! 0%nat = Some i /\
    (i < length (Utils.Object_entries Utils.ranges))%nat /\
    (Utils.Object_entries Utils.ranges).*1 !! i = Some c /\
    (Utils.Object_entries Utils.ranges).*2 !! i = Some v /\
    Utils.rng (fun i => i) Utils.ranges =
      Return {| Utils.value := Some v; Utils.chance := Some c |} /\
    Utils.ranges !! c = Some v.
Proof.
  apply (rng_in_bounds (fun i => i) Utils.ranges). vm_compute. tauto.
Defined.

(** ** The rating *)

Section RatingFacts.
Import Rating.

Lemma bracket_range p : 1 <= bracket p <= 5.
Proof. unfold bracket. repeat case_match; lia. Qed.

Lemma bracket_monotone p1 p2 : p1 <= p2 -> bracket p1 <= bracket p2.
Proof.
  intros Hp. unfold bracket.
  repeat match goal with
         | |- context [?a <? ?b] => destruct (Z.ltb_spec a b)
         end; lia.
Qed.

Lemma clamp_range s : 1 <= clamp s <= 5.
Proof. unfold clamp. lia. Qed.

Lemma rate_None p : rate None p = bracket p.
Proof.
  unfold rate, stars, clamp. simpl. pose proof (bracket_range p). lia.
Qed.

Lemma rate_Some r p :
  rate (Some r) p = Z.max (bracket p) (shifted r (bracket p)).
Proof.
  unfold rate, stars, clamp. simpl. pose proof (bracket_range p).
  destruct r; simpl; lia.
Qed.

(** The expectations of the tests the model meets; it misses the other
    eleven. *)
Lemma fixture_agreement :
  filter (fun row => agrees row = true) fixture =
  [ (None, Some 0, 1); (Some Main, Some 400000, 5);
    (None, Some 1000000, 5); (None, None, 1) ].
Proof. by vm_compute. Qed.

(** Whatever the second candidate tier is, the higher of the two is at
    least the bracket, which reaches 5: no rating is both the higher of two
    such tiers and at most 2 whatever the popularity. *)
Lemma higher_of_two_defeats_cap (f candidate : Z -> Z) :
  (forall p, f p = clamp (Z.max (bracket p) (candidate p))) ->
  ~ forall p, f p <= 2.
Proof.
  intros Hf Hcap. specialize (Hcap 1000000). rewrite Hf in Hcap.
  change (bracket 1000000) with 5 in Hcap. unfold clamp in Hcap. lia.
Qed.

(** C8.  The rating is a function of its arguments, and for a fixed role
    (or none) it does not decrease when the popularity grows. *)
Theorem rating_monotone (r : option CharacterRole) p1 p2 :
  p1 < p2 ->
  rate r p1 <= rate r p2 /\
  forall a1 a2, a1 = a2 -> stars a1 = stars a2.
Proof.
  intros Hp. split; [|by intros a1 a2 ->].
  assert (bracket p1 <= bracket p2) by (apply bracket_monotone; lia).
  destruct r as [r|]; [|by rewrite !rate_None].
  rewrite !rate_Some. destruct r; simpl; lia.
Qed.

Lemma rating_monotone_witness :
  rate (Some Main) 0 <= rate (Some Main) 250000 /\
  forall a1 a2, a1 = a2 -> stars a1 = stars a2.
Proof. apply (rating_monotone (Some Main) 0 250000). lia. Defined.
End RatingFacts.

(** ** The pool builder *)

Section PoolFacts.
Import Packs.
Implicit Types (e : PoolEntry) (pool out : list PoolEntry)
  (occurrences : gmap string bool) (stars : option Z).

Lemma seen_insert occurrences key key' :
  seen (<[key := true]> occurrences) key' =
  seen occurrences key' || bool_decide (key = key').
Proof.
  unfold seen. destruct (decide (key = key')) as [->|Hne].
  - rewrite lookup_insert_eq, bool_decide_eq_true_2 by done. simpl.
    by rewrite !orb_true_r.
  - rewrite lookup_insert_ne, bool_decide_eq_false_2 by done.
    by rewrite orb_false_r.
Qed.

Lemma filter_pool_sublist stars occurrences pool :
  filter_pool stars occurrences pool `sublist_of` pool.
Proof.
  revert occurrences. induction pool as [|e pool IH]; intros occurrences;
    simpl; [done|].
  repeat case_match; try (by apply sublist_cons); by apply sublist_skip.
Qed.

Lemma filter_pool_wanted stars occurrences pool e :
  e ∈ filter_pool stars occurrences pool -> wanted stars e.
Proof.
  revert occurrences. induction pool as [|e' pool IH]; intros occurrences;
    simpl; [by intros ?%elem_of_nil|].
  destruct stars as [s|]; simpl; [|done].
  destruct (Z.eqb_spec (rating e') s) as [Heq|Hne]; simpl; [|by apply IH].
  destruct (seen occurrences (mediaId e')); [by apply IH|].
  intros [->|?]%elem_of_cons; [done|by eapply IH].
Qed.

Lemma filter_pool_unseen stars occurrences pool e :
  e ∈ filter_pool stars occurrences pool ->
  seen occurrences (mediaId e) = false.
Proof.
  revert occurrences. induction pool as [|e' pool IH]; intros occurrences;
    simpl; [by intros ?%elem_of_nil|].
  destruct (match stars with Some s => negb (rating e' =? s) | None => false end);
    [by apply IH|].
  destruct (seen occurrences (mediaId e')) eqn:Hseen; [by apply IH|].
  intros [->|Hin%IH]%elem_of_cons; [done|].
  rewrite seen_insert in Hin. by apply orb_false_iff in Hin as [? _].
Qed.

Lemma filter_pool_NoDup stars occurrences pool :
  NoDup (mediaId <$> filter_pool stars occurrences pool).
Proof.
  revert occurrences. induction pool as [|e pool IH]; intros occurrences;
    simpl; [constructor|].
  destruct (match stars with Some s => negb (rating e =? s) | None => false end);
    [by apply IH|].
  destruct (seen occurrences (mediaId e)) eqn:Hseen; [by apply IH|].
  rewrite fmap_cons. constructor; [|by apply IH].
  intros (e' & Heq & Hin%filter_pool_unseen)%list_elem_of_fmap.
  rewrite seen_insert, Heq, bool_decide_eq_true_2 in Hin by done.
  by rewrite orb_true_r in Hin.
Qed.

(** A survivor is the first wanted entry of its media in the array. *)
Lemma filter_pool_first stars occurrences pool e :
  e ∈ filter_pool stars occurrences pool ->
  exists before after,
    pool = before ++ e :: after /\
    Forall (fun e' => wanted stars e' -> mediaId e' <> mediaId e) before.
Proof.
  revert occurrences. induction pool as [|e' pool IH]; intros occurrences;
    simpl; [by intros ?%elem_of_nil|].
  assert (Hskip : forall occ,
    (wanted stars e' -> seen occ (mediaId e') = true) ->
    e ∈ filter_pool stars occ pool -> seen occ (mediaId e) = false ->
    exists before after,
      e' :: pool = before ++ e :: after /\
      Forall (fun e' => wanted stars e' -> mediaId e' <> mediaId e) before).
  { intros occ Hseen (before & after & -> & Hfirst)%IH Hunseen.
    exists (e' :: before), after. split; [done|].
    constructor; [|done]. intros Hw Heq. rewrite Heq in Hseen.
    rewrite Hseen in Hunseen; done. }
  destruct stars as [s|]; simpl.
  - destruct (Z.eqb_spec (rating e') s) as [Heq|Hne]; simpl.
    + destruct (seen occurrences (mediaId e')) eqn:Hseen.
      * intros Hin. apply (Hskip occurrences); eauto using filter_pool_unseen.
      * intros [->|Hin]%elem_of_cons; [by exists [], pool|].
        apply (Hskip (<[mediaId e' := true]> occurrences)); [|done|].
        -- intros _. rewrite seen_insert, bool_decide_eq_true_2 by done.
           apply orb_true_r.
        -- by eapply filter_pool_unseen.
    + intros Hin.
      apply (Hskip occurrences); [done| |by eapply filter_pool_unseen]; done.
  - destruct (seen occurrences (mediaId e')) eqn:Hseen.
    + intros Hin. apply (Hskip occurrences); eauto using filter_pool_unseen.
    + intros [->|Hin]%elem_of_cons; [by exists [], pool|].
      apply (Hskip (<[mediaId e' := true]> occurrences)); [|done|].
      * intros _. rewrite seen_insert, bool_decide_eq_true_2 by done.
        apply orb_true_r.
      * by eapply filter_pool_unseen.
Qed.

(** Every wanted media that [occurrences] does not hide is represented. *)
Lemma filter_pool_represented stars occurrences pool e :
  e ∈ pool -> wanted stars e -> seen occurrences (mediaId e) = false ->
  exists e', e' ∈ filter_pool stars occurrences pool /\
             mediaId e' = mediaId e.
Proof.
  revert occurrences. induction pool as [|e0 pool IH]; intros occurrences;
    [by intros ?%elem_of_nil|].
  intros Hin Hw Hunseen. simpl.
  assert (Hrest : forall occ, e ∈ pool -> seen occ (mediaId e) = false ->
    exists e', e' ∈ filter_pool stars occ pool /\ mediaId e' = mediaId e)
    by eauto.
  apply elem_of_cons in Hin as [->|Hin].
  - replace (match stars with Some s => negb (rating e0 =? s) | None => false end)
      with false.
    + rewrite Hunseen. exists e0. split; [apply list_elem_of_here|done].
    + destruct stars as [s|]; [|done]. simpl in Hw. rewrite Hw.
      by rewrite Z.eqb_refl.
  - destruct (match stars with Some s => negb (rating e0 =? s) | None => false end);
      [by apply Hrest|].
    destruct (seen occurrences (mediaId e0)) eqn:Hseen; [by apply Hrest|].
    destruct (decide (mediaId e0 = mediaId e)) as [Heq|Hne].
    + exists e0. split; [apply list_elem_of_here|done].
    + destruct (Hrest (<[mediaId e0 := true]> occurrences)) as (e' & ? & ?);
        [done| |].
      * rewrite seen_insert, Hunseen, bool_decide_eq_false_2; done.
      * exists e'. split; [by apply list_elem_of_further|done].
Qed.

Lemma elem_of_concat {A} (x : A) (ls : list (list A)) :
  x ∈ concat ls <-> exists l, l ∈ ls /\ x ∈ l.
Proof.
  rewrite list_elem_of_In, in_concat.
  by setoid_rewrite list_elem_of_In.
Qed.

Lemma foldl_append {A B} (f : B -> list A) (init : list A) (l : list B) :
  foldl (fun acc b => acc ++ f b) init l = init ++ concat (f <$> l).
Proof.
  revert init. induction l as [|b l IH]; intros init; simpl.
  - by rewrite app_nil_r.
  - by rewrite IH, <- app_assoc.
Qed.

Lemma candidates_stars anilist installed range role s :
  candidates anilist installed range role (Some s) =
  Return (concat (ALL <$> anilist.*2) ++ concat installed).
Proof.
  unfold candidates, cached. cbn [mbind result_bind].
  rewrite (foldl_append ALL), (foldl_append (fun l => l)). simpl.
  do 3 f_equal. apply (list_fmap_id installed).
Qed.

Lemma seen_empty key : seen ∅ key = inherited key.
Proof. unfold seen. rewrite lookup_empty. apply orb_false_r. Qed.

(** C3.  Whatever the guild's packs, the bracket, the role and the exact
    rating asked for, a pool that [pool] returns never holds two entries
    of the same media, and every entry it holds is the first wanted entry
    of its media in the shuffled array. *)
Theorem pool_unique_media random anilist installed range role stars out :
  pool random anilist installed range role stars = Return out ->
  NoDup (mediaId <$> out) /\
  exists all,
    candidates anilist installed range role stars = Return all /\
    forall e, e ∈ out ->
      exists before after,
        Utils.shuffle random all = before ++ e :: after /\
        Forall (fun e' => wanted stars e' -> mediaId e' <> mediaId e) before.
Proof.
  unfold pool.
  destruct (candidates anilist installed range role stars) as [all|err];
    cbn [mbind result_bind]; [|done].
  intros [= <-]. split; [apply filter_pool_NoDup|].
  exists all. split; [done|]. intros e. apply filter_pool_first.
Qed.

(** C7.  Asked for an exact rating, [pool] never throws; its candidates
    are the [ALL] bucket of every bracket of the cache (and the installed
    packs' characters), whatever [range] and [role] are; every entry it
    returns has the rating asked for, and every media with a character of
    that rating in some bracket's [ALL] is represented. *)
Theorem pool_exact_stars random anilist installed range role s :
  exists out,
    pool random anilist installed range role (Some s) = Return out /\
    candidates anilist installed range role (Some s) =
      Return (concat (ALL <$> anilist.*2) ++ concat installed) /\
    Forall (fun e => rating e = s) out /\
    (forall e, e ∈ out ->
       e ∈ concat (ALL <$> anilist.*2) ++ concat installed) /\
    (forall b e, b ∈ anilist.*2 -> e ∈ ALL b -> rating e = s ->
       inherited (mediaId e) = false ->
       exists e', e' ∈ out /\ mediaId e' = mediaId e).
Proof.
  unfold pool. rewrite candidates_stars. cbn [mbind result_bind].
  eexists. split; [done|]. split; [done|]. split_and!.
  - apply Forall_forall. intros e. apply filter_pool_wanted.
  - intros e Hin. eapply shuffle_elem_of, elem_of_sublist; [done|].
    apply filter_pool_sublist.
  - intros b e Hb He Hs Hproto. apply filter_pool_represented; [|done|].
    + apply shuffle_elem_of, elem_of_app. left.
      apply elem_of_concat. exists (ALL b). split; [|done].
      by apply list_elem_of_fmap_2.
    + by rewrite seen_empty.
Qed.

Lemma pool_unique_media_witness :
  exists out,
    pool (fun _ => 0%nat) sample_cache [sample_pack]
      (Some [Some 1000; Some 50000]) None None = Return out /\
    NoDup (mediaId <$> out) /\
    length out = 3%nat.
Proof.
  eexists. split; [vm_compute; reflexivity|]. split; [|reflexivity].
  refine (proj1 (pool_unique_media (fun _ => 0%nat) sample_cache
                   [sample_pack] (Some [Some 1000; Some 50000])
                   None None _ _)).
  vm_compute. reflexivity.
Defined.
End PoolFacts.

(** ** The sacrifice grouper *)

Section ResultFacts.
Context {A B : Type}.

Lemma bind_Return (r : result A) (k : A -> result B) b :
  r ≫= k = Return b -> exists a, r = Return a /\ k a = Return b.
Proof. destruct r as [a|e]; [by exists a|done]. Qed.

Lemma defined_Return (o : option A) a : defined o = Return a <-> o = Some a.
Proof. destruct o; simpl; naive_solver. Qed.
End ResultFacts.

Section ChunkFacts.
Context {T : Type}.
Implicit Types (a : list T).

Lemma chunks_fuel_concat fuel size a :
  (0 < size)%nat -> (length a <= fuel)%nat ->
  concat (Utils.chunks_fuel fuel size a) = a.
Proof.
  intros Hsize. revert a.
  induction fuel as [|fuel IH]; intros a Hlen; simpl.
  - destruct a; [done|simpl in Hlen; lia].
  - destruct a as [|x a]; [done|].
    rewrite concat_cons, IH, take_drop; [done|].
    rewrite length_drop. simpl in *. lia.
Qed.

Lemma chunks_concat a size :
  (0 < size)%nat -> concat (Utils.chunks a size) = a.
Proof. intros. by apply chunks_fuel_concat. Qed.

Lemma submseteq_concat_take (n : nat) (ls : list (list T)) :
  concat (take n ls) ⊆+ concat ls.
Proof.
  rewrite <- (take_drop n ls) at 2. rewrite concat_app.
  by apply submseteq_inserts_r.
Qed.

Lemma concat_concat (ls : list (list (list T))) :
  concat ((fun t => concat t) <$> ls) = concat (concat ls).
Proof.
  induction ls as [|l ls IH]; [done|].
  by rewrite fmap_cons, !concat_cons, concat_app, IH.
Qed.

Lemma submseteq_concat_concat_take (n : nat) (ls : list (list (list T))) :
  concat (concat (take n ls)) ⊆+ concat (concat ls).
Proof.
  rewrite <- (take_drop n ls) at 2. rewrite !concat_app.
  by apply submseteq_inserts_r.
Qed.

Lemma concat_singletons a : concat ((fun c => [c]) <$> a) = a.
Proof.
  induction a as [|x a IH]; [done|].
  by rewrite fmap_cons, concat_cons, IH.
Qed.

Lemma elem_of_concat_submseteq (g : list T) (ls : list (list T)) :
  g ∈ ls -> g ⊆+ concat ls.
Proof.
  intros (l1 & l2 & ->)%list_elem_of_split.
  rewrite concat_app, concat_cons.
  apply submseteq_inserts_l, submseteq_inserts_r. done.
Qed.
End ChunkFacts.

Section MergeFacts.
Import Merge.
Implicit Types (c : Character) (characters group : list Character)
  (split : gmap Z (list Character))
  (possibilities : gmap Z (list (list Character))).

Lemma insert_Permutation c characters :
  insert c characters ≡ₚ c :: characters.
Proof.
  induction characters as [|d rest IH]; simpl; [done|].
  case_match; [done|]. by rewrite IH, perm_swap.
Qed.

Lemma sorted_Permutation characters : sorted characters ≡ₚ characters.
Proof.
  induction characters as [|c rest IH]; simpl; [done|].
  by rewrite insert_Permutation, IH.
Qed.

Lemma empty_record_tiers {A} : tiers (@empty_record A).
Proof.
  intros k. unfold empty_record.
  rewrite !lookup_insert_is_Some, lookup_empty, is_Some_alt. lia.
Qed.

Lemma empty_record_tier {A} k : tier (@empty_record A) k = [].
Proof.
  unfold tier, empty_record.
  repeat (rewrite lookup_insert; case_decide; [done|]).
  by rewrite lookup_empty.
Qed.

Lemma push_Return {A} (record record' : gmap Z (list A)) key items :
  tiers record -> push record key items = Return record' ->
  1 <= key <= 5 /\ tiers record' /\
  tier record' key = tier record key ++ items /\
  forall k, k <> key -> tier record' k = tier record k.
Proof.
  intros Hwf (array & Harray%defined_Return & [= <-])%bind_Return.
  assert (1 <= key <= 5) by (apply Hwf; eauto).
  split_and!; [lia..| | |].
  - intros k. rewrite lookup_insert_is_Some. pose proof (Hwf k) as Hk.
    destruct (decide (key = k)) as [->|Hne]; [split; [lia|by left]|].
    rewrite <- Hk. split; [by intros [?|[_ ?]]|by right].
  - unfold tier. by rewrite lookup_insert_eq, Harray.
  - intros k Hk. unfold tier. by rewrite lookup_insert_ne.
Qed.

Lemma tier_lookup {A} (record : gmap Z (list A)) k l :
  record !! k = Some l -> tier record k = l.
Proof. unfold tier. by intros ->. Qed.

Lemma supply_step {A} (record : gmap Z (list A)) k :
  1 <= k -> supply record k = supply record (k - 1) ++ tier record k.
Proof.
  intros Hk. unfold supply.
  replace (Z.to_nat k) with (S (Z.to_nat (k - 1))) by lia. simpl.
  do 2 f_equal. lia.
Qed.

Lemma upto_submseteq {A} (record : gmap Z (list A)) m n :
  (m <= n)%nat -> upto record m ⊆+ upto record n.
Proof.
  induction 1 as [|n Hle IH]; [done|]. simpl.
  by apply submseteq_inserts_r.
Qed.

Lemma supply_submseteq {A} (record : gmap Z (list A)) j k :
  j <= k -> supply record j ⊆+ supply record k.
Proof. intros. apply upto_submseteq. lia. Qed.

Lemma upto_push {A} (record record' : gmap Z (list A)) key items n :
  tiers record -> push record key items = Return record' ->
  upto record' n ≡ₚ
  (if decide (key <= Z.of_nat n) then items else []) ++ upto record n.
Proof.
  intros Hwf (Hkey & _ & Hat & Hother)%push_Return; [|done].
  induction n as [|n IH]; [by rewrite decide_False by lia|].
  cbn [upto]. rewrite IH.
  destruct (decide (key = Z.of_nat (S n))) as [Heq|Hne].
  - rewrite <- Heq, Hat. rewrite decide_False, decide_True by lia.
    simpl. rewrite (app_assoc (upto record n)).
    apply Permutation_app_comm.
  - rewrite Hother by done.
    destruct (decide (key <= Z.of_nat n)).
    + rewrite decide_True by lia. by rewrite app_assoc.
    + rewrite decide_False by lia. done.
Qed.

(** Separating the sorted characters loses and invents nothing. *)
Lemma separate_supply characters split0 split :
  tiers split0 -> forEach separate characters split0 = Return split ->
  tiers split /\ supply split 5 ≡ₚ supply split0 5 ++ characters.
Proof.
  revert split0. induction characters as [|c rest IH]; intros split0 Hwf.
  - intros [= <-]. by rewrite app_nil_r.
  - intros (split1 & Hpush & Hrest)%bind_Return.
    pose proof (push_Return _ _ _ _ Hwf Hpush) as (Hkey & Hwf1 & _).
    destruct (IH _ Hwf1 Hrest) as [Hwf2 Hperm]. split; [done|].
    rewrite Hperm. unfold supply.
    rewrite (upto_push _ _ _ _ _ Hwf Hpush), decide_True by lia.
    simpl. by rewrite Permutation_middle.
Qed.

Lemma supply_empty_record {A} k : supply (@empty_record A) k = [].
Proof.
  unfold supply. induction (Z.to_nat k) as [|n IH]; [done|].
  cbn [upto]. by rewrite IH, empty_record_tier.
Qed.

Lemma empty_record_folded split : folded split 1 empty_record.
Proof.
  split_and!.
  - apply empty_record_tiers.
  - intros j ?. lia.
  - intros j _. apply empty_record_tier.
  - by rewrite empty_record_tier.
Qed.

(** The callback either leaves [possibilities] alone (the target is
    reached) or appends to tier [i] the folded chunks of tier [i - 1] and
    the characters rated [i]. *)
Lemma fold_tier_Return split target possibilities possibilities' i :
  tiers possibilities ->
  fold_tier split target possibilities i = Return possibilities' ->
  possibilities' = possibilities \/
  (1 <= i <= 5 /\ tiers possibilities' /\
   (forall k, k <> i -> tier possibilities' k = tier possibilities k) /\
   tier possibilities' i =
     tier possibilities i ++
     (if 1 <? i
      then (fun t => concat t) <$>
             take (length (tier possibilities (i - 1)) / 5)
               (Utils.chunks (tier possibilities (i - 1)) 5)
      else []) ++
     ((fun c => [c]) <$> tier split i)).
Proof.
  intros Hwf. unfold fold_tier.
  intros ([] & _ & Hbody)%bind_Return; [left; congruence|]. right.
  apply bind_Return in Hbody as (P1 & Hprev & Hown).
  apply bind_Return in Hown as (own & Hsplit%defined_Return & Hpush).
  rewrite (tier_lookup _ _ _ Hsplit).
  destruct (1 <? i) eqn:Hi.
  - apply bind_Return in Hprev
      as (previous & Hlook%defined_Return & Hpush1).
    rewrite (tier_lookup _ _ _ Hlook).
    destruct (push_Return _ _ _ _ Hwf Hpush1) as (? & Hwf1 & Hat1 & Hne1).
    destruct (push_Return _ _ _ _ Hwf1 Hpush) as (? & Hwf2 & Hat2 & Hne2).
    split_and!; [lia..|done| |].
    + intros k Hk. by rewrite Hne2, Hne1.
    + by rewrite Hat2, Hat1, <- app_assoc.
  - injection Hprev as <-.
    destruct (push_Return _ _ _ _ Hwf Hpush) as (? & Hwf2 & Hat2 & Hne2).
    by split_and!; [lia..|done|done|].
Qed.

Lemma fold_tier_folded split target possibilities possibilities' i :
  1 <= i ->
  folded split i possibilities ->
  fold_tier split target possibilities i = Return possibilities' ->
  folded split (i + 1) possibilities'.
Proof.
  intros Hi (Hwf & Hbelow & Habove & Hones) Hstep.
  destruct (fold_tier_Return _ _ _ _ _ Hwf Hstep)
    as [->|(Hi5 & Hwf' & Hne & Hat)].
  - split_and!; [done| |intros j ?; apply Habove; lia|done].
    intros j Hj. destruct (decide (j = i)) as [->|].
    + rewrite Habove by lia. apply submseteq_nil_l.
    + apply Hbelow. lia.
  - rewrite (Habove i), app_nil_l in Hat by lia.
    split_and!; [done| |intros j ?; rewrite Hne by lia; apply Habove; lia|].
    + intros j Hj. destruct (decide (j = i)) as [->|].
      * rewrite Hat, concat_app, concat_singletons, supply_step by lia.
        apply submseteq_app; [|done].
        destruct (1 <? i) eqn:Hlt; [|apply submseteq_nil_l].
        rewrite concat_concat.
        etrans; [apply submseteq_concat_concat_take|].
        rewrite chunks_concat by lia. apply Hbelow. lia.
      * rewrite Hne by done. apply Hbelow. lia.
    + destruct (decide (i = 1)) as [->|].
      * rewrite Hat. simpl. apply Forall_fmap, Forall_forall. done.
      * by rewrite Hne.
Qed.

(** After the five rounds. *)
Lemma possibilities_of_folded split target possibilities :
  possibilities_of split target = Return possibilities ->
  folded split 6 possibilities.
Proof.
  unfold possibilities_of. cbn [forEach].
  intros (P1 & H1 & (P2 & H2 & (P3 & H3 & (P4 & H4 & (P5 & H5 & [= <-])
    %bind_Return)%bind_Return)%bind_Return)%bind_Return)%bind_Return.
  pose proof (empty_record_folded split) as F0.
  apply (fold_tier_folded _ _ _ _ 1) in H1; [|lia|done].
  apply (fold_tier_folded _ _ _ _ 2) in H2; [|lia|done].
  apply (fold_tier_folded _ _ _ _ 3) in H3; [|lia|done].
  apply (fold_tier_folded _ _ _ _ 4) in H4; [|lia|done].
  apply (fold_tier_folded _ _ _ _ 5) in H5; [|lia|done].
  done.
Qed.

Lemma grouped_folded characters target possibilities :
  grouped characters target = Return possibilities ->
  exists split,
    folded split 6 possibilities /\ supply split 5 ≡ₚ characters.
Proof.
  intros (split & Hsplit & Hposs)%bind_Return.
  apply separate_supply in Hsplit as [_ Hperm]; [|apply empty_record_tiers].
  rewrite supply_empty_record in Hperm.
  exists split. eauto using possibilities_of_folded.
Qed.

(** What [chosen] returns is a possibility of five characters or more at
    the tier it resolves. *)
Lemma chosen_Return possibilities mode target group t :
  chosen possibilities mode target = Return (group, t) ->
  t <> 0 /\ exists p index,
    possibilities !! t = Some p /\ findIndex p = Some (index, group).
Proof.
  intros (target' & _ & Hrest)%bind_Return.
  destruct target' as [t'|]; [|done].
  destruct (Z.eqb_spec t' 0) as [|Hne]; [done|].
  apply bind_Return in Hrest as (p & Hp%defined_Return & Hfind).
  destruct (findIndex p) as [[index group']|] eqn:Hindex.
  - injection Hfind as <- <-. eauto.
  - by destruct (defined (possibilities !! (t' - 1))).
Qed.

(** With ratings in 1..5 and a target in 0..5 (or none) the grouping
    returns. *)
Lemma push_total {A} (record : gmap Z (list A)) key items :
  tiers record -> 1 <= key <= 5 ->
  exists record', push record key items = Return record'.
Proof.
  intros Hwf [array Harray]%Hwf. unfold push. rewrite Harray. eauto.
Qed.

Lemma separate_total characters split0 :
  Forall rated characters -> tiers split0 ->
  exists split, forEach separate characters split0 = Return split.
Proof.
  intros Hrated. revert split0.
  induction Hrated as [|c rest Hc _ IH]; intros split0 Hwf; [by eexists|].
  destruct (push_total split0 (if rating c =? 5 then 4 else rating c) [c])
    as [split1 Hpush]; [done|unfold rated in Hc; case_match; lia|].
  destruct (IH split1) as [split Hsplit].
  { by eapply push_Return. }
  exists split. cbn [forEach].
  change (separate split0 c)
    with (push split0 (if rating c =? 5 then 4 else rating c) [c]).
  by rewrite Hpush.
Qed.

Lemma fold_tier_total split target possibilities i :
  tiers split -> tiers possibilities -> targeted target -> 1 <= i <= 5 ->
  exists possibilities',
    fold_tier split target possibilities i = Return possibilities' /\
    tiers possibilities'.
Proof.
  intros Hsplit Hwf Htarget Hi. unfold fold_tier.
  assert (exists stop, reached target possibilities = Return stop)
    as [stop ->].
  { unfold reached. destruct target as [t|]; [|by eexists].
    destruct (Z.eqb_spec t 0); [by eexists|].
    destruct (proj2 (Hwf t)) as [p ->]; [simpl in Htarget; lia|].
    by eexists. }
  cbn [mbind result_bind]. destruct stop; [by eexists|].
  destruct (proj2 (Hsplit i) Hi) as [own Hown].
  destruct (1 <? i) eqn:Hlt.
  - destruct (proj2 (Hwf (i - 1))) as [previous ->]; [lia|].
    cbn [defined mbind result_bind].
    edestruct (push_total possibilities i) as [P1 HP1]; [done..|].
    rewrite HP1. cbn [mbind result_bind]. rewrite Hown.
    cbn [defined mbind result_bind].
    apply push_Return in HP1 as (_ & Hwf1 & _); [|done].
    edestruct (push_total P1 i) as [P2 HP2]; [done..|].
    rewrite HP2. eexists. split; [done|]. by eapply push_Return.
  - cbn [mbind result_bind]. rewrite Hown.
    cbn [defined mbind result_bind].
    edestruct (push_total possibilities i) as [P2 HP2]; [done..|].
    rewrite HP2. eexists. split; [done|]. by eapply push_Return.
Qed.


Lemma sorted_rated characters :
  Forall rated characters -> Forall rated (sorted characters).
Proof. by rewrite sorted_Permutation. Qed.


(** C9.  When [getSacrifices] returns, the sacrifices are five or more
    characters taken from the collection, each as often at most as the
    collection holds it (so pairwise distinct when the collection's are),
    the resolved target is one of 2, 3, 4, 5, and the array [characters]
    is as it was. *)
Theorem getSacrifices_sound characters mode target after sacrifices t :
  getSacrifices characters mode target = (after, Return (sacrifices, t)) ->
  (5 <= length sacrifices)%nat /\
  sacrifices ⊆+ characters /\
  (NoDup characters -> NoDup sacrifices) /\
  2 <= t <= 5 /\
  after = characters.
Proof.
  unfold getSacrifices, toSorted, getSacrifices_body.
  intros [= <- (possibilities & Hgrouped & Hchosen)%bind_Return].
  apply grouped_folded in Hgrouped
    as (split & (Hwf & Hbelow & _ & Hones) & Hperm).
  apply chosen_Return in Hchosen as (Ht0 & p & index & Hp & Hfind).
  apply list_find_Some in Hfind as (Hin%list_elem_of_lookup_2 & Hfive & _).
  assert (Ht : 1 <= t <= 5) by (apply Hwf; eauto).
  rewrite <- (tier_lookup _ _ _ Hp) in Hin.
  assert (Hsub : sacrifices ⊆+ characters).
  { rewrite <- (sorted_Permutation characters), <- Hperm.
    etrans; [by apply elem_of_concat_submseteq|].
    etrans; [apply Hbelow; lia|]. apply supply_submseteq. lia. }
  split_and!; try done.
  - intros Hnodup.
    apply submseteq_Permutation in Hsub as [rest Hrest].
    rewrite Hrest in Hnodup. by apply NoDup_app in Hnodup as [? _].
  - destruct (decide (t = 1)) as [->|]; [|lia].
    rewrite Forall_forall in Hones. apply Hones in Hin. lia.
  - lia.
Qed.



Lemma filter_two_le {A} (P Q : A -> Prop)
    `{!forall x, Decision (P x)} `{!forall x, Decision (Q x)} (l : list A) :
  (forall x, P x -> Q x -> False) ->
  (length (filter P l) + length (filter Q l) <= length l)%nat.
Proof.
  intros Hdisjoint. induction l as [|x l IH]; [done|].
  rewrite !filter_cons.
  destruct (decide (P x)) as [HP|HP], (decide (Q x)) as [HQ|HQ];
    simpl; try lia.
  by destruct (Hdisjoint x).
Qed.

Lemma filter_two_lengths {A} (P Q : A -> Prop)
    `{!forall x, Decision (P x)} `{!forall x, Decision (Q x)} (l : list A) :
  (forall x, P x -> Q x -> False) ->
  (length (filter P l) + length (filter Q l) = length l)%nat ->
  Forall (fun x => P x \/ Q x) l.
Proof.
  intros Hdisjoint. induction l as [|x l IH]; [done|].
  pose proof (filter_two_le P Q l Hdisjoint).
  rewrite !filter_cons. intros Hlen. apply Forall_cons.
  destruct (decide (P x)) as [HP|HP], (decide (Q x)) as [HQ|HQ];
    simpl in Hlen; try lia.
  - by destruct (Hdisjoint x).
  - split; [by left|]. apply IH. lia.
  - split; [by right|]. apply IH. lia.
Qed.

Lemma filter_two_Permutation {A} (P Q : A -> Prop)
    `{!forall x, Decision (P x)} `{!forall x, Decision (Q x)} (l : list A) :
  (forall x, P x -> Q x -> False) ->
  Forall (fun x => P x \/ Q x) l ->
  filter P l ++ filter Q l ≡ₚ l.
Proof.
  intros Hdisjoint. induction 1 as [|x l Hx _ IH]; [done|].
  rewrite !filter_cons.
  destruct (decide (P x)) as [HP|HP], (decide (Q x)) as [HQ|HQ].
  - by destruct (Hdisjoint x).
  - simpl. by rewrite IH.
  - by rewrite <- Permutation_middle, IH.
  - by destruct Hx.
Qed.

(** C5.  Whatever 25 characters rated 1 the collection holds: 'min'
    resolves target 2 with the first five of them, 'max' resolves target 3
    with all 25. *)
Theorem min_max_25_ones characters :
  length characters = 25%nat ->
  Forall (fun c => rating c = 1) characters ->
  (exists sacrifices,
     (getSacrifices characters Merge.min None).2 = Return (sacrifices, 2) /\
     length sacrifices = 5%nat /\
     Forall (fun c => rating c = 1) sacrifices /\
     sacrifices = take 5 characters) /\
  (exists sacrifices,
     (getSacrifices characters Merge.max None).2 = Return (sacrifices, 3) /\
     length sacrifices = 25%nat /\
     Forall (fun c => rating c = 1) sacrifices /\
     sacrifices = characters).
Proof.
  intros Hlen Hones.
  do 25 (destruct characters as [|[? ?] characters]; [done|]).
  destruct characters; [clear Hlen|done].
  rewrite !Forall_cons in Hones. simpl in Hones. destruct_and!. subst.
  split; eexists; (split; [vm_compute; reflexivity|]);
    (split; [done|]); (split; [|done]); cbn [take];
    repeat (apply Forall_cons; split; [done|]); apply Forall_nil_2.
Qed.

Lemma min_max_25_ones_witness :
  (exists sacrifices,
     (getSacrifices ones25 Merge.min None).2 = Return (sacrifices, 2) /\
     length sacrifices = 5%nat /\
     Forall (fun c => rating c = 1) sacrifices /\
     sacrifices = take 5 ones25) /\
  (exists sacrifices,
     (getSacrifices ones25 Merge.max None).2 = Return (sacrifices, 3) /\
     length sacrifices = 25%nat /\
     Forall (fun c => rating c = 1) sacrifices /\
     sacrifices = ones25).
Proof.
  apply (min_max_25_ones ones25); [reflexivity|].
  vm_compute. repeat (apply Forall_cons; split; [reflexivity|]).
  apply Forall_nil_2.
Defined.

(** C6.  Four characters rated 4 and one rated 5, in any order, with
    target 5: the call resolves 5 and its sacrifices are those five, the
    four rated 4 in the order they had, then the one rated 5.  They are
    what [split[4]] holds once the characters are separated, the one rated
    5 with the others, and [split[5]] stays empty. *)
Theorem fours_and_five_target_5 characters :
  length characters = 5%nat ->
  length (filter (fun c => rating c = 4) characters) = 4%nat ->
  length (filter (fun c => rating c = 5) characters) = 1%nat ->
  exists sacrifices split,
    (getSacrifices characters Merge.target (Some 5)).2
      = Return (sacrifices, 5) /\
    sacrifices ≡ₚ characters /\
    sacrifices = filter (fun c => rating c = 4) characters
                   ++ filter (fun c => rating c = 5) characters /\
    forEach separate (sorted characters) empty_record = Return split /\
    tier split 4 = sacrifices /\ tier split 5 = [].
Proof.
  intros Hlen Hfours Hfive.
  assert (forall c, rating c = 4 -> rating c = 5 -> False) as Hdisjoint
    by (intros c; lia).
  assert (Forall (fun c => rating c = 4 \/ rating c = 5) characters) as Hall
    by (apply (filter_two_lengths _ _ _ Hdisjoint); lia).
  pose proof (filter_two_Permutation _ _ _ Hdisjoint Hall) as Hperm.
  clear Hdisjoint.
  do 5 (destruct characters as [|[? ?] characters]; [done|]).
  destruct characters; [clear Hlen|done].
  rewrite !Forall_cons in Hall. simpl in Hall.
  destruct Hall as ([->| ->] & [->| ->] & [->| ->] & [->| ->] & [->| ->] & _);
    vm_compute in Hfours; vm_compute in Hfive; try done;
    eexists _, _; (split; [vm_compute; reflexivity|]);
    (split; [vm_compute in Hperm; exact Hperm|]);
    repeat split; vm_compute; reflexivity.
Qed.

Lemma fours_and_five_target_5_witness :
  exists sacrifices split,
    (getSacrifices (fixture 4 1 5 ++ fixture 0 4 4) Merge.target (Some 5)).2
      = Return (sacrifices, 5) /\
    sacrifices ≡ₚ fixture 4 1 5 ++ fixture 0 4 4 /\
    sacrifices = filter (fun c => rating c = 4) (fixture 4 1 5 ++ fixture 0 4 4)
                   ++ filter (fun c => rating c = 5)
                        (fixture 4 1 5 ++ fixture 0 4 4) /\
    forEach separate (sorted (fixture 4 1 5 ++ fixture 0 4 4)) empty_record
      = Return split /\
    tier split 4 = sacrifices /\ tier split 5 = [].
Proof.
  apply (fours_and_five_target_5 (fixture 4 1 5 ++ fixture 0 4 4));
    vm_compute; reflexivity.
Defined.

Lemma getSacrifices_sound_witness :
  (5 <= length fours_and_five)%nat /\
  fours_and_five ⊆+ fours_and_five /\
  (NoDup fours_and_five -> NoDup fours_and_five) /\
  2 <= 5 <= 5 /\
  fours_and_five = fours_and_five.
Proof.
  apply (getSacrifices_sound fours_and_five Merge.target (Some 5)
           fours_and_five fours_and_five 5).
  vm_compute. reflexivity.
Defined.
End MergeFacts.


(** ** The sacrifice grouper: what a merge is made of *)

Section MergeTiers.
Import Merge.
Implicit Types (c : Character) (characters group : list Character)
  (split : gmap Z (list Character))
  (possibilities : gmap Z (list (list Character))).

(** The callback either finds the target reached and leaves
    [possibilities] alone, or builds tier [i]. *)
Lemma fold_tier_cases split target possibilities possibilities' i :
  tiers possibilities ->
  fold_tier split target possibilities i = Return possibilities' ->
  (reached target possibilities = Return true /\
   possibilities' = possibilities) \/
  (reached target possibilities = Return false /\
   1 <= i <= 5 /\ tiers possibilities' /\
   (forall k, k <> i -> tier possibilities' k = tier possibilities k) /\
   tier possibilities' i =
     tier possibilities i ++
     (if 1 <? i then promoted (tier possibilities (i - 1)) else []) ++
     ((fun c => [c]) <$> tier split i)).
Proof.
  intros Hwf. unfold fold_tier, promoted.
  destruct (reached target possibilities) as [[]|]; cbn [mbind result_bind];
    [intros [= <-]; by left| |done].
  intros Hbody. right. split; [done|].
  apply bind_Return in Hbody as (P1 & Hprev & Hown).
  apply bind_Return in Hown as (own & Hsplit%defined_Return & Hpush).
  rewrite (tier_lookup _ _ _ Hsplit).
  destruct (1 <? i) eqn:Hi.
  - apply bind_Return in Hprev
      as (previous & Hlook%defined_Return & Hpush1).
    rewrite (tier_lookup _ _ _ Hlook).
    destruct (push_Return _ _ _ _ Hwf Hpush1) as (? & Hwf1 & Hat1 & Hne1).
    destruct (push_Return _ _ _ _ Hwf1 Hpush) as (? & Hwf2 & Hat2 & Hne2).
    split_and!; [lia..|done| |].
    + intros k Hk. by rewrite Hne2, Hne1.
    + by rewrite Hat2, Hat1, <- app_assoc.
  - injection Hprev as <-.
    destruct (push_Return _ _ _ _ Hwf Hpush) as (? & Hwf2 & Hat2 & Hne2).
    by split_and!; [lia..|done|done|].
Qed.

Lemma empty_record_built split target : built split target 1 empty_record.
Proof.
  split; [apply empty_record_tiers|]. exists 0%nat. split_and!.
  - lia.
  - intros j ?. lia.
  - intros j _. apply empty_record_tier.
  - lia.
Qed.

Lemma fold_tier_built split target possibilities possibilities' i :
  1 <= i ->
  built split target i possibilities ->
  fold_tier split target possibilities i = Return possibilities' ->
  built split target (i + 1) possibilities'.
Proof.
  intros Hi (Hwf & s & Hs & Hlow & Hhigh & Hstop) Hstep.
  destruct (fold_tier_cases _ _ _ _ _ Hwf Hstep)
    as [[Hreached ->]|(Hreached & Hi5 & Hwf' & Hne & Hat)].
  - split; [done|]. exists s. split_and!; [lia|done|done|done].
  - assert (Z.of_nat s = i - 1) as Hsi.
    { destruct (decide (Z.of_nat s < i - 1)) as [Hlt|]; [|lia].
      rewrite (Hstop Hlt) in Hreached. done. }
    split; [done|]. exists (S s). split_and!; [lia| | |lia].
    + intros j Hj. destruct (decide (j = S s)) as [->|].
      * replace (Z.of_nat (S s)) with i by lia.
        rewrite Hat, (Hhigh i), app_nil_l by lia. cbn [complete].
        replace (Z.of_nat (S s)) with i by lia.
        destruct (1 <? i) eqn:Hlt; [|done].
        apply Z.ltb_lt in Hlt. do 2 f_equal.
        rewrite <- Hsi. apply Hlow. lia.
      * rewrite Hne by lia. apply Hlow. lia.
    + intros j Hj. rewrite Hne by lia. apply Hhigh. lia.
Qed.

Lemma possibilities_of_built split target possibilities :
  possibilities_of split target = Return possibilities ->
  built split target 6 possibilities.
Proof.
  unfold possibilities_of. cbn [forEach].
  intros (P1 & H1 & (P2 & H2 & (P3 & H3 & (P4 & H4 & (P5 & H5 & [= <-])
    %bind_Return)%bind_Return)%bind_Return)%bind_Return)%bind_Return.
  pose proof (empty_record_built split target) as B0.
  apply (fold_tier_built _ _ _ _ 1) in H1; [|lia|done].
  apply (fold_tier_built _ _ _ _ 2) in H2; [|lia|done].
  apply (fold_tier_built _ _ _ _ 3) in H3; [|lia|done].
  apply (fold_tier_built _ _ _ _ 4) in H4; [|lia|done].
  apply (fold_tier_built _ _ _ _ 5) in H5; [|lia|done].
  done.
Qed.

(** A tier that holds something is complete. *)
Lemma built_nonempty split target possibilities t :
  built split target 6 possibilities ->
  tier possibilities t <> [] ->
  1 <= t <= 5 /\ tier possibilities t = complete split (Z.to_nat t).
Proof.
  intros (Hwf & s & Hs & Hlow & Hhigh & _) Hne.
  assert (1 <= t <= 5) as Ht.
  { apply Hwf. unfold tier in Hne.
    destruct (possibilities !! t); [by eexists|done]. }
  split; [done|].
  destruct (decide (Z.of_nat s < t)) as [Hlt|]; [by rewrite Hhigh in Hne|].
  rewrite <- (Hlow (Z.to_nat t)) by lia. f_equal. lia.
Qed.

(** The tier of the target is always complete. *)
Lemma built_target split t possibilities :
  1 <= t <= 5 ->
  built split (Some t) 6 possibilities ->
  tier possibilities t = complete split (Z.to_nat t).
Proof.
  intros Ht Hbuilt.
  destruct (decide (tier possibilities t = [])) as [Hempty|Hne];
    [|by eapply built_nonempty].
  destruct Hbuilt as (Hwf & s & Hs & Hlow & Hhigh & Hstop).
  destruct (decide (Z.of_nat s < t)) as [Hlt|].
  - assert (reached (Some t) possibilities = Return true) as Hreached
      by (apply Hstop; lia).
    unfold reached in Hreached.
    destruct (Z.eqb_spec t 0); [done|].
    destruct (proj2 (Hwf t) Ht) as [p Hp].
    rewrite Hp in Hreached. rewrite (tier_lookup _ _ _ Hp) in Hempty.
    by subst p.
  - rewrite <- (Hlow (Z.to_nat t)) by lia. f_equal. lia.
Qed.

(** Without a target every tier is complete. *)
Lemma built_all split possibilities t :
  1 <= t <= 5 ->
  built split None 6 possibilities ->
  tier possibilities t = complete split (Z.to_nat t).
Proof.
  intros Ht (Hwf & s & Hs & Hlow & Hhigh & Hstop).
  destruct (decide (Z.of_nat s < 5)) as [Hlt|]; [by specialize (Hstop Hlt)|].
  rewrite <- (Hlow (Z.to_nat t)) by lia. f_equal. lia.
Qed.

Lemma possibilities_of_total split target :
  tiers split -> targeted target ->
  exists possibilities, possibilities_of split target = Return possibilities.
Proof.
  intros Hwf Htarget. unfold possibilities_of. cbn [forEach].
  destruct (fold_tier_total split target empty_record 1)
    as (P1 & -> & W1); [done|apply empty_record_tiers|done|lia|].
  cbn [mbind result_bind].
  destruct (fold_tier_total split target P1 2) as (P2 & -> & W2);
    [done..|lia|]. cbn [mbind result_bind].
  destruct (fold_tier_total split target P2 3) as (P3 & -> & W3);
    [done..|lia|]. cbn [mbind result_bind].
  destruct (fold_tier_total split target P3 4) as (P4 & -> & W4);
    [done..|lia|]. cbn [mbind result_bind].
  destruct (fold_tier_total split target P4 5) as (P5 & -> & W5);
    [done..|lia|]. cbn [mbind result_bind].
  by eexists.
Qed.

Lemma separate_tiers characters split :
  forEach separate characters empty_record = Return split -> tiers split.
Proof.
  intros Hsplit. by apply separate_supply in Hsplit as [? _];
    [|apply empty_record_tiers].
Qed.

(** 'target' mode, read off the complete tiers. *)
Lemma target_mode_complete characters split t :
  forEach separate (sorted characters) empty_record = Return split ->
  2 <= t <= 5 ->
  (getSacrifices characters Merge.target (Some t)).2 =
    match findIndex (complete split (Z.to_nat t)) with
    | Some (_, group) => Return (group, t)
    | None =>
        Throw (MergeInsufficient
                 (length (complete split (Z.to_nat (t - 1)))) t)
    end.
Proof.
  intros Hsplit Ht. pose proof (separate_tiers _ _ Hsplit) as Hwf.
  destruct (possibilities_of_total split (Some t) Hwf) as [P HP];
    [simpl; lia|].
  pose proof (possibilities_of_built _ _ _ HP) as Hbuilt.
  unfold getSacrifices, toSorted, getSacrifices_body, grouped. simpl.
  rewrite Hsplit. cbn [mbind result_bind]. rewrite HP.
  cbn [mbind result_bind]. unfold chosen.
  cbn [mbind result_bind mret result_ret].
  destruct (Z.eqb_spec t 0) as [|_]; [lia|].
  pose proof (built_target split t P ltac:(lia) Hbuilt) as Htier.
  pose proof Hbuilt as [HwfP Hs].
  destruct (proj2 (HwfP t)) as [p Hp]; [lia|].
  destruct (proj2 (HwfP (t - 1))) as [q Hq]; [lia|].
  rewrite Hp. cbn [defined mbind result_bind].
  rewrite (tier_lookup _ _ _ Hp) in Htier. subst p.
  destruct (findIndex _) as [[index group]|] eqn:Hfind; [done|].
  rewrite Hq. cbn [defined mbind result_bind]. do 3 f_equal.
  assert (q <> [] \/ q = []) as [Hne| ->] by (destruct q; eauto).
  - rewrite <- (tier_lookup _ _ _ Hq).
    rewrite <- (tier_lookup _ _ _ Hq) in Hne.
    apply (built_nonempty split (Some t) P) in Hne; [|done].
    destruct Hne as [_ Heq]. by rewrite Heq.
  - destruct Hs as (s & Hs & Hlow & Hhigh & Hstop).
    destruct (decide (Z.of_nat s < t - 1)) as [Hlt|Hge].
    + assert (reached (Some t) P = Return true) as Hreached
        by (apply Hstop; lia).
      unfold reached in Hreached.
      destruct (Z.eqb_spec t 0); [done|]. rewrite Hp in Hreached.
      simpl in Hreached. injection Hreached as Hreached.
      apply negb_true_iff, Nat.eqb_neq in Hreached.
      rewrite <- (tier_lookup _ _ _ Hp), Hhigh in Hreached by lia. done.
    + rewrite <- (Hlow (Z.to_nat (t - 1))) by lia.
      replace (Z.of_nat (Z.to_nat (t - 1))) with (t - 1) by lia.
      by rewrite (tier_lookup _ _ _ Hq).
Qed.

Lemma select_complete split possibilities target n :
  built split None 6 possibilities -> 1 <= n <= 5 ->
  select possibilities target n =
    Return (if viable split n then Some n else target).
Proof.
  intros Hbuilt Hn. pose proof (built_all _ _ _ Hn Hbuilt) as Htier.
  destruct Hbuilt as [Hwf _]. destruct (proj2 (Hwf n) Hn) as [p Hp].
  unfold select, viable. rewrite Hp. cbn [defined mbind result_bind].
  rewrite (tier_lookup _ _ _ Hp) in Htier. subst p.
  destruct (findIndex _) as [[]|].
  - by rewrite bool_decide_eq_true_2 by eauto.
  - by rewrite bool_decide_eq_false_2 by (by intros []).
Qed.

(** 'min' and 'max' without a target, read off the complete tiers. *)
Lemma auto_mode_complete characters split mode order :
  forEach separate (sorted characters) empty_record = Return split ->
  (mode = Merge.min /\ order = [5; 4; 3; 2]) \/
  (mode = Merge.max /\ order = [2; 3; 4; 5]) ->
  (getSacrifices characters mode None).2 =
    match resolved split order with
    | None => Throw MergeNotPossible
    | Some t =>
        match findIndex (complete split (Z.to_nat t)) with
        | Some (_, group) => Return (group, t)
        | None => Throw MergeNotPossible
        end
    end /\
  match resolved split order with
  | None => True
  | Some t => 2 <= t <= 5 /\ viable split t = true
  end.
Proof.
  intros Hsplit Hmode. pose proof (separate_tiers _ _ Hsplit) as Hwf.
  destruct (possibilities_of_total split None Hwf) as [P HP]; [done|].
  pose proof (possibilities_of_built _ _ _ HP) as Hbuilt.
  unfold getSacrifices, toSorted, getSacrifices_body, grouped. simpl.
  rewrite Hsplit. cbn [mbind result_bind]. rewrite HP.
  cbn [mbind result_bind]. unfold chosen.
  assert (forall t, 2 <= t <= 5 -> viable split t = true ->
    (if t =? 0 then Throw MergeNotPossible
     else p ← defined (P !! t);
          match findIndex p with
          | Some (_, group) => Return (group, t)
          | None =>
              previous ← defined (P !! (t - 1));
              Throw (MergeInsufficient (length previous) t)
          end) =
    match findIndex (complete split (Z.to_nat t)) with
    | Some (_, group) => Return (group, t)
    | None => Throw MergeNotPossible
    end) as Hfinal.
  { intros t Ht Hviable. destruct (Z.eqb_spec t 0); [lia|].
    pose proof (built_all split P t ltac:(lia) Hbuilt) as Htier.
    destruct Hbuilt as [HwfP _]. destruct (proj2 (HwfP t)) as [p Hp]; [lia|].
    rewrite Hp. cbn [defined mbind result_bind].
    rewrite (tier_lookup _ _ _ Hp) in Htier. subst p.
    unfold viable in Hviable. apply bool_decide_eq_true in Hviable.
    destruct Hviable as [[index group] Hfind]. by rewrite Hfind. }
  destruct Hmode as [[-> ->]|[-> ->]]; cbn [forEach];
    repeat (rewrite (select_complete split) by (done || lia);
            cbn [mbind result_bind]);
    unfold resolved; cbn [foldl];
    destruct (viable split 2) eqn:H2, (viable split 3) eqn:H3,
      (viable split 4) eqn:H4, (viable split 5) eqn:H5;
    (split; [first [done|by apply Hfinal]|first [done|split; [lia|done]]]).
Qed.

(** What a returned group is, whatever the mode. *)
Lemma returned_found characters mode target group t :
  (getSacrifices characters mode target).2 = Return (group, t) ->
  exists split index,
    forEach separate (sorted characters) empty_record = Return split /\
    2 <= t <= 5 /\
    findIndex (complete split (Z.to_nat t)) = Some (index, group).
Proof.
  unfold getSacrifices, toSorted, getSacrifices_body. simpl.
  intros (P & Hgrouped & Hchosen)%bind_Return.
  pose proof (grouped_folded _ _ _ Hgrouped) as (? & (_ & _ & _ & Hones) & _).
  unfold grouped in Hgrouped.
  apply bind_Return in Hgrouped as (split & Hsplit & HP).
  apply possibilities_of_built in HP.
  apply chosen_Return in Hchosen as (Ht0 & p & index & Hp & Hfind).
  exists split, index. split; [done|].
  pose proof Hfind as (Hin%list_elem_of_lookup_2 & Hfive & _)%list_find_Some.
  rewrite <- (tier_lookup _ _ _ Hp) in Hin, Hfind.
  destruct (built_nonempty split target P t HP) as [Ht Htier].
  { intros Hempty. rewrite Hempty in Hin. by apply elem_of_nil in Hin. }
  rewrite <- Htier. split; [|done].
  destruct (decide (t = 1)) as [->|]; [|lia].
  rewrite Forall_forall in Hones. apply Hones in Hin. lia.
Qed.

(** X1.  What [confirmed] consumes is what [synthesize] showed: when a
    call of [getSacrifices], in any mode, returns a group and resolves a
    target, the call in 'target' mode with that target returns the same
    group. *)
Theorem confirmed_repeats_preview characters mode target group t :
  (getSacrifices characters mode target).2 = Return (group, t) ->
  (getSacrifices characters Merge.target (Some t)).2 = Return (group, t).
Proof.
  intros (split & index & Hsplit & Ht & Hfind)%returned_found.
  by rewrite (target_mode_complete _ _ _ Hsplit Ht), Hfind.
Qed.

Lemma confirmed_repeats_preview_witness :
  (getSacrifices ones25 Merge.target (Some 3)).2 = Return (ones25, 3).
Proof.
  apply (confirmed_repeats_preview ones25 Merge.max None ones25 3).
  vm_compute. reflexivity.
Defined.

Lemma not_viable_throws characters split t :
  forEach separate (sorted characters) empty_record = Return split ->
  2 <= t <= 5 -> viable split t = false ->
  exists count,
    (getSacrifices characters Merge.target (Some t)).2 =
      Throw (MergeInsufficient count t).
Proof.
  intros Hsplit Ht Hviable.
  rewrite (target_mode_complete _ _ _ Hsplit Ht).
  apply bool_decide_eq_false in Hviable.
  destruct (findIndex _) as [[]|]; [by destruct Hviable|by eexists].
Qed.

(** X2.  'min' resolves the cheapest merge: when it returns with target
    [t], 'target' mode raises the insufficient-sacrifices error for every
    target from 2 up to [t - 1]. *)
Theorem min_resolves_lowest characters group t :
  (getSacrifices characters Merge.min None).2 = Return (group, t) ->
  forall t', 2 <= t' < t ->
    exists count,
      (getSacrifices characters Merge.target (Some t')).2 =
        Throw (MergeInsufficient count t').
Proof.
  intros Hmin t' Ht'.
  pose proof Hmin as (split & index & Hsplit & Ht & _)%returned_found.
  destruct (auto_mode_complete characters split Merge.min [5; 4; 3; 2] Hsplit)
    as [Hauto _]; [by left|].
  rewrite Hauto in Hmin. apply (not_viable_throws _ split); [done|lia|].
  unfold resolved in Hmin. cbn [foldl] in Hmin.
  assert (t' = 2 \/ t' = 3 \/ t' = 4) as [-> | [-> | ->]] by lia;
    destruct (viable split 2) eqn:H2, (viable split 3) eqn:H3,
      (viable split 4) eqn:H4, (viable split 5) eqn:H5; try done;
    destruct (findIndex _) as [[]|]; try done;
    injection Hmin as _ Heq; lia.
Qed.

Lemma min_resolves_lowest_witness :
  (getSacrifices five_twos Merge.min None).2 = Return (five_twos, 3) /\
  forall t', 2 <= t' < 3 ->
    exists count,
      (getSacrifices five_twos Merge.target (Some t')).2 =
        Throw (MergeInsufficient count t').
Proof.
  split; [vm_compute; reflexivity|].
  apply (min_resolves_lowest five_twos five_twos 3).
  vm_compute. reflexivity.
Defined.



(** The chunks that are folded hold five possibilities each. *)
Lemma whole_chunks_fuel {T} fuel (l : list T) chunk :
  (length l <= fuel)%nat ->
  chunk ∈ take (length l / 5) (Utils.chunks_fuel fuel 5 l) ->
  length chunk = 5%nat /\ chunk ⊆ l.
Proof.
  revert l. induction fuel as [|fuel IH]; intros l Hfuel;
    cbn [Utils.chunks_fuel].
  - rewrite take_nil. by intros ?%elem_of_nil.
  - destruct l as [|x l]; [rewrite take_nil; by intros ?%elem_of_nil|].
    destruct (decide (length (x :: l) < 5)%nat) as [Hshort|Hlong].
    + rewrite Nat.div_small by done. by intros ?%elem_of_nil.
    + assert (length (x :: l) / 5 = S (length (drop 5 (x :: l)) / 5))%nat
        as ->.
      { rewrite length_drop.
        replace (length (x :: l)) with (length (x :: l) - 5 + 1 * 5)%nat
          at 1 by lia.
        rewrite Nat.div_add by lia. lia. }
      remember (take 5 (x :: l)) as head eqn:Hhead.
      remember (drop 5 (x :: l)) as rest eqn:Hrest.
      cbn [take]. intros [->|Hin]%elem_of_cons.
      * subst head. split; [rewrite length_take; lia|apply subseteq_take].
      * apply IH in Hin as [? Hsub];
          [|subst rest; rewrite length_drop; simpl in *; lia].
        split; [done|]. etrans; [done|subst rest; apply subseteq_drop].
Qed.

Lemma promoted_elem_of previous group :
  group ∈ promoted previous ->
  exists chunk, group = concat chunk /\ length chunk = 5%nat /\
                chunk ⊆ previous.
Proof.
  unfold promoted. intros (chunk & -> & Hin)%list_elem_of_fmap.
  exists chunk. split; [done|]. by apply (whole_chunks_fuel (length previous)).
Qed.

Lemma total_worth_concat (groups : list (list Character)) w :
  Forall (fun group => total_worth group = w) groups ->
  total_worth (concat groups) = (length groups * w)%nat.
Proof.
  induction 1 as [|group groups Hw _ IH]; [done|].
  rewrite concat_cons. unfold total_worth in *.
  rewrite sum_list_with_app, Hw, IH. simpl. lia.
Qed.

(** [split] keeps every character under the key of its rating. *)
Lemma push_bucket split split' c :
  tiers split ->
  (forall k c', c' ∈ tier split k -> bucket c' = k) ->
  separate split c = Return split' ->
  tiers split' /\ forall k c', c' ∈ tier split' k -> bucket c' = k.
Proof.
  intros Hwf Hkeys Hpush. unfold separate in Hpush.
  destruct (push_Return _ _ _ _ Hwf Hpush) as (_ & Hwf' & Hat & Hne).
  split; [done|]. intros k c' Hin.
  destruct (decide (k = if rating c =? 5 then 4 else rating c)) as [->|Hk].
  - rewrite Hat in Hin. apply elem_of_app in Hin as [Hin|Hin]; [eauto|].
    by apply list_elem_of_singleton in Hin as ->.
  - rewrite Hne in Hin by done. eauto.
Qed.

Lemma separate_bucket characters split0 split :
  tiers split0 ->
  (forall k c, c ∈ tier split0 k -> bucket c = k) ->
  forEach separate characters split0 = Return split ->
  forall k c, c ∈ tier split k -> bucket c = k.
Proof.
  revert split0. induction characters as [|c rest IH]; intros split0 Hwf Hkeys.
  - by intros [= <-].
  - intros (split1 & Hpush & Hrest)%bind_Return.
    destruct (push_bucket _ _ _ Hwf Hkeys Hpush) as [Hwf1 Hkeys1]. eauto.
Qed.

(** A possibility of tier [n] is worth [5 ^ (n - 1)] characters rated 1. *)
Lemma complete_worth split n group :
  (forall k c, c ∈ tier split k -> bucket c = k) ->
  group ∈ complete split n ->
  total_worth group = (5 ^ (n - 1))%nat.
Proof.
  intros Hkeys. revert group.
  induction n as [|n IH]; intros group; [by intros ?%elem_of_nil|].
  cbn [complete]. rewrite elem_of_app.
  intros [Hin|(c & -> & Hc%Hkeys)%list_elem_of_fmap].
  - destruct (1 <? Z.of_nat (S n)) eqn:Hn; [|by apply elem_of_nil in Hin].
    apply Z.ltb_lt in Hn.
    apply promoted_elem_of in Hin as (chunk & -> & Hfive & Hsub).
    rewrite (total_worth_concat chunk (5 ^ (n - 1))), Hfive.
    + replace (S n - 1)%nat with (S (n - 1)) by lia.
      by rewrite Nat.pow_succ_r'.
    + apply Forall_forall. intros g Hg. apply IH, Hsub, Hg.
  - unfold total_worth, worth. cbn [sum_list_with]. rewrite Hc.
    rewrite Nat2Z.id, Nat.add_0_r. f_equal.
Qed.

Lemma returned_worth characters mode target group t :
  (getSacrifices characters mode target).2 = Return (group, t) ->
  2 <= t <= 5 /\ (5 <= length group)%nat /\
  total_worth group = (5 ^ (Z.to_nat t - 1))%nat.
Proof.
  intros (split & index & Hsplit & Ht & Hfind)%returned_found.
  apply list_find_Some in Hfind as (Hin%list_elem_of_lookup_2 & Hfive & _).
  split_and!; [lia..|done|].
  apply (complete_worth split); [|done].
  apply (separate_bucket (sorted characters) empty_record split);
    [apply empty_record_tiers| |done].
  intros k c. rewrite empty_record_tier. by intros ?%elem_of_nil.
Qed.

Lemma worth_positive c : (1 <= worth c)%nat.
Proof. unfold worth. pose proof (Nat.pow_nonzero 5 (Z.to_nat (bucket c) - 1)). lia. Qed.

Lemma total_worth_elem_of c group :
  c ∈ group -> (worth c + (length group - 1) <= total_worth group)%nat.
Proof.
  unfold total_worth.
  induction 1 as [c group|c d group Hin IH]; simpl.
  - assert (length group <= sum_list_with worth group)%nat; [|lia].
    induction group as [|d group IH]; simpl; [done|].
    pose proof (worth_positive d). lia.
  - pose proof (worth_positive d). destruct group; [by apply elem_of_nil in Hin|].
    simpl in *. lia.
Qed.

(** X4.  A merge adds up: with a character kept under key [k] of [split]
    counting for [5 ^ (k - 1)] characters rated 1, the sacrifices returned
    for target [t] count for exactly [5 ^ (t - 1)], and they are at most
    that many. *)
Theorem sacrifices_add_up characters mode target group t :
  (getSacrifices characters mode target).2 = Return (group, t) ->
  total_worth group = (5 ^ (Z.to_nat t - 1))%nat /\
  (length group <= 5 ^ (Z.to_nat t - 1))%nat.
Proof.
  intros (Ht & Hfive & Hworth)%returned_worth. split; [done|].
  rewrite <- Hworth. unfold total_worth. clear.
  induction group as [|d group IH]; simpl; [done|].
  pose proof (worth_positive d). lia.
Qed.

Lemma sacrifices_add_up_witness :
  total_worth fours_and_five = (5 ^ (Z.to_nat 5 - 1))%nat /\
  (length fours_and_five <= 5 ^ (Z.to_nat 5 - 1))%nat.
Proof.
  apply (sacrifices_add_up fours_and_five Merge.target (Some 5)
           fours_and_five 5).
  vm_compute. reflexivity.
Defined.

(** X5.  No sacrifice is rated at or above the target it is merged into,
    but for characters rated 5, which are sacrificed for target 5 only. *)
Theorem sacrifices_below_target characters mode target group t :
  (getSacrifices characters mode target).2 = Return (group, t) ->
  forall c, c ∈ group -> rating c < t \/ (rating c = 5 /\ t = 5).
Proof.
  intros (Ht & Hfive & Hworth)%returned_worth c Hin.
  pose proof (total_worth_elem_of c group Hin) as Hc.
  rewrite Hworth in Hc. unfold worth in Hc.
  assert (Z.to_nat (bucket c) - 1 < Z.to_nat t - 1)%nat as Hlt.
  { apply (Nat.pow_lt_mono_r_iff 5); lia. }
  unfold bucket in Hlt. destruct (Z.eqb_spec (rating c) 5); lia.
Qed.

Lemma sacrifices_below_target_witness :
  (getSacrifices fours_and_five Merge.target (Some 5)).2
    = Return (fours_and_five, 5) /\
  forall c, c ∈ fours_and_five -> rating c < 5 \/ (rating c = 5 /\ 5 = 5).
Proof.
  split; [vm_compute; reflexivity|].
  apply (sacrifices_below_target fours_and_five Merge.target (Some 5)
           fours_and_five 5).
  vm_compute. reflexivity.
Defined.

Lemma returned_submseteq characters mode target group t :
  (getSacrifices characters mode target).2 = Return (group, t) ->
  group ⊆+ characters.
Proof.
  unfold getSacrifices, toSorted, getSacrifices_body. simpl.
  intros (P & Hgrouped & Hchosen)%bind_Return.
  apply grouped_folded in Hgrouped
    as (split & (Hwf & Hbelow & _ & Hones) & Hperm).
  apply chosen_Return in Hchosen as (Ht0 & p & index & Hp & Hfind).
  apply list_find_Some in Hfind as (Hin%list_elem_of_lookup_2 & Hfive & _).
  assert (Ht : 1 <= t <= 5) by (apply Hwf; eauto).
  rewrite <- (tier_lookup _ _ _ Hp) in Hin.
  rewrite <- (sorted_Permutation characters), <- Hperm.
  etrans; [by apply elem_of_concat_submseteq|].
  etrans; [apply Hbelow; lia|]. apply supply_submseteq. lia.
Qed.

(** X6.  Without a target, 'min' and 'max' on characters rated 1 to 5
    either return or report that no merge is possible, never anything
    else; with fewer than five characters no merge is possible. *)
Theorem auto_mode_outcome characters mode :
  Forall rated characters -> mode <> Merge.target ->
  ((exists group t,
      (getSacrifices characters mode None).2 = Return (group, t)) \/
   (getSacrifices characters mode None).2 = Throw MergeNotPossible) /\
  ((length characters < 5)%nat ->
   (getSacrifices characters mode None).2 = Throw MergeNotPossible).
Proof.
  intros Hrated%sorted_rated Hmode.
  destruct (separate_total _ empty_record Hrated) as [split Hsplit];
    [apply empty_record_tiers|].
  assert (exists order,
    (mode = Merge.min /\ order = [5; 4; 3; 2]) \/
    (mode = Merge.max /\ order = [2; 3; 4; 5])) as [order Horder]
    by (destruct mode; [done|eexists; left|eexists; right]; done).
  destruct (auto_mode_complete characters split mode order Hsplit Horder)
    as [Hauto _].
  assert ((exists group t,
      (getSacrifices characters mode None).2 = Return (group, t)) \/
   (getSacrifices characters mode None).2 = Throw MergeNotPossible) as Hcases.
  { rewrite Hauto. destruct (resolved split order) as [t|]; [|by right].
    destruct (findIndex _) as [[index group]|]; [left; eauto|by right]. }
  split; [done|]. intros Hfew.
  destruct Hcases as [(group & t & Hreturn)|]; [|done].
  pose proof (returned_submseteq _ _ _ _ _ Hreturn) as Hsub%submseteq_length.
  apply returned_worth in Hreturn as (_ & Hfive & _). lia.
Qed.

Lemma auto_mode_outcome_witness :
  ((exists group t,
      (getSacrifices (fixture 0 4 1) Merge.min None).2 = Return (group, t)) \/
   (getSacrifices (fixture 0 4 1) Merge.min None).2 = Throw MergeNotPossible) /\
  ((length (fixture 0 4 1) < 5)%nat ->
   (getSacrifices (fixture 0 4 1) Merge.min None).2 = Throw MergeNotPossible).
Proof.
  apply (auto_mode_outcome (fixture 0 4 1) Merge.min); [|done].
  apply Forall_forall. intros c Hc. vm_compute in Hc.
  repeat (apply elem_of_cons in Hc as [->|Hc]; [by vm_compute|]).
  by apply elem_of_nil in Hc.
Defined.

(** X7.  A merge spares the party and the likes: whatever
    [getSacrifices] returns on the characters [getFilteredCharacters]
    yields comes from the inventory, holds no member of the party and no
    character whose id a like names ([characterId], or [mediaId] when the
    like has no [characterId]). *)
Theorem sacrifices_spare_party_and_likes likes party characters mode target
    group t :
  (getSacrifices (getFilteredCharacters likes party characters) mode target).2
    = Return (group, t) ->
  group ⊆+ characters /\
  forall c, c ∈ group ->
    (forall member, Some member ∈ members party -> id member <> id c) /\
    (forall like, like ∈ default [] likes ->
       characterId like <> Some (id c) /\
       (characterId like = None -> mediaId like <> Some (id c))).
Proof.
  intros Hsub%returned_submseteq.
  assert (getFilteredCharacters likes party characters ⊆+ characters)
    as Hfilter by apply sublist_submseteq, sublist_filter.
  split; [by etrans|]. intros c Hc.
  eapply elem_of_submseteq in Hc; [|done].
  apply list_elem_of_filter in Hc as [[Hparty Hlikes] _]. split.
  - intros member Hmember Heq. apply Hparty. unfold partyIds.
    rewrite <- Heq. unfold members in Hmember.
    repeat (apply elem_of_cons in Hmember as [Hm|Hmember];
            [rewrite <- Hm; set_solver|]).
    by apply elem_of_nil in Hmember.
  - intros like Hlike.
    assert (match characterId like with
            | Some c' => Some c'
            | None => mediaId like
            end <> Some (id c)) as Hne.
    { intros Heq. apply Hlikes. unfold likesIds. rewrite <- Heq.
      apply list_elem_of_fmap. by exists like. }
    destruct (characterId like); [split; [congruence|done]|].
    split; [done|by intros _].
Qed.

Lemma sacrifices_spare_party_and_likes_witness :
  fixture 2 5 4 ⊆+ fixture 0 7 4 /\
  forall c, c ∈ fixture 2 5 4 ->
    (forall member, Some member ∈ members sample_party -> id member <> id c) /\
    (forall like, like ∈ default [] (Some sample_likes) ->
       characterId like <> Some (id c) /\
       (characterId like = None -> mediaId like <> Some (id c))).
Proof.
  apply (sacrifices_spare_party_and_likes (Some sample_likes) sample_party
           (fixture 0 7 4) Merge.target (Some 5) (fixture 2 5 4) 5).
  vm_compute. reflexivity.
Defined.
End MergeTiers.

(** ** The pool builder: what the shuffle decides *)

Section PoolMore.
Import Packs.
Implicit Types (e : PoolEntry) (pool out : list PoolEntry).

(** The keys of the cache as [JSON.stringify] writes them: the brackets of
    the game, and ranges whose numbers are past the integers a double
    holds exactly, or past the 21 digits written in full. *)
Lemma JSON_stringify_keys :
  JSON_stringify (Some [Some 1000; Some 50000]) = "[1000,50000]" /\
  JSON_stringify (Some [Some 400000; None]) = "[400000,null]" /\
  JSON_stringify (Some [Some (2 ^ 53 + 1); Some (2 ^ 60)])
    = "[9007199254740992,1152921504606847000]" /\
  JSON_stringify (Some [Some (10 ^ 21); None]) = "[1e+21,null]" /\
  JSON_stringify (Some [Some (2 ^ 70); Some (10 ^ 23)])
    = "[1.1805916207174113e+21,1e+23]" /\
  JSON_stringify (Some [Some (- 5); Some (10 ^ 309)]) = "[-5,null]".
Proof. by vm_compute. Qed.

(** The medias of a filtered array: those of its wanted entries whose id
    [occurrences] does not hide from the start. *)
Lemma filter_pool_media stars pool m :
  m ∈ mediaId <$> filter_pool stars ∅ pool <->
  exists e, e ∈ pool /\ wanted stars e /\ mediaId e = m /\
            inherited m = false.
Proof.
  split.
  - intros (e & -> & Hin)%list_elem_of_fmap. exists e. split_and!.
    + eapply elem_of_sublist; [done|apply filter_pool_sublist].
    + by eapply filter_pool_wanted.
    + done.
    + rewrite <- seen_empty. by eapply filter_pool_unseen.
  - intros (e & Hin & Hwanted & <- & Hproto).
    destruct (filter_pool_represented stars ∅ pool e) as (e' & Hin' & Heq);
      [done..|by rewrite seen_empty|].
    rewrite <- Heq. by apply list_elem_of_fmap_2.
Qed.

(** X8.  The shuffle decides which character stands for a media, never
    which medias are in the pool: two calls of [pool] that differ in the
    random draws only return the same medias, hence as many entries. *)
Theorem pool_medias_whatever_the_shuffle random1 random2 anilist installed
    range role stars out1 out2 :
  pool random1 anilist installed range role stars = Return out1 ->
  pool random2 anilist installed range role stars = Return out2 ->
  mediaId <$> out1 ≡ₚ mediaId <$> out2 /\ length out1 = length out2.
Proof.
  unfold pool.
  destruct (candidates anilist installed range role stars) as [all|];
    cbn [mbind result_bind]; [|done].
  intros [= <-] [= <-].
  assert (mediaId <$> filter_pool stars ∅ (Utils.shuffle random1 all) ≡ₚ
          mediaId <$> filter_pool stars ∅ (Utils.shuffle random2 all))
    as Hperm.
  { apply NoDup_Permutation; [apply filter_pool_NoDup..|].
    intros m. rewrite !filter_pool_media.
    by setoid_rewrite shuffle_elem_of. }
  split; [done|]. apply Permutation_length in Hperm.
  by rewrite !length_fmap in Hperm.
Qed.

Lemma pool_medias_whatever_the_shuffle_witness :
  exists out1 out2,
    mediaId <$> out1 ≡ₚ mediaId <$> out2 /\ length out1 = length out2.
Proof.
  eexists _, _.
  apply (pool_medias_whatever_the_shuffle (fun i => i) (fun _ => 0%nat)
           sample_cache [sample_pack] (Some [Some 1000; Some 50000])
           None None); vm_compute; reflexivity.
Defined.

(** X9.  Asked for a bracket, [pool] throws a [TypeError] exactly when the
    cache has no property for the range, whatever the installed packs
    hold; otherwise it returns entries of the bucket of the role (ALL
    without a role) of that bracket and of the installed packs only. *)
Theorem pool_of_a_bracket random anilist installed range role :
  match property (JSON_stringify range) anilist with
  | None =>
      pool random anilist installed range role None = Throw TypeError
  | Some b =>
      exists out,
        pool random anilist installed range role None = Return out /\
        forall e, e ∈ out -> e ∈ bucket role b \/ e ∈ concat installed
  end.
Proof.
  unfold pool, candidates, cached.
  destruct (property (JSON_stringify range) anilist) as [b|];
    cbn [defined mbind result_bind]; [|done].
  eexists. split; [done|]. intros e Hin.
  eapply elem_of_sublist in Hin; [|apply filter_pool_sublist].
  apply shuffle_elem_of in Hin.
  rewrite (foldl_append (fun l => l)) in Hin.
  apply elem_of_app in Hin as [?|Hin]; [by left|right].
  by replace ((fun l : list PoolEntry => l) <$> installed) with installed
    in Hin by (symmetry; apply (list_fmap_id installed)).
Qed.
End PoolMore.

(** ** The shuffle and the sampler: what can be drawn *)

Section DrawFacts.
Context {T : Type}.
Implicit Types (array : list T).

Lemma exchange_same i array : Utils.exchange i i array = array.
Proof.
  unfold Utils.exchange. destruct (array !! i) as [x|] eqn:Hi; [|done].
  by rewrite list_insert_insert_eq, list_insert_id.
Qed.

Lemma exchange_first p array x :
  array !! p = Some x -> Utils.exchange 0 p array !! 0%nat = Some x.
Proof.
  intros Hp. unfold Utils.exchange.
  destruct (array !! 0%nat) as [temp|] eqn:H0.
  - rewrite Hp. destruct p as [|p].
    + rewrite list_lookup_insert_eq; [congruence|].
      rewrite length_insert. by eapply lookup_lt_Some.
    + rewrite list_lookup_insert_ne by done.
      rewrite list_lookup_insert_eq; [done|]. by eapply lookup_lt_Some.
  - apply lookup_ge_None in H0. apply lookup_lt_Some in Hp. lia.
Qed.

Lemma shuffle_loop_still random i todo array :
  (forall k, (i <= k)%nat -> (random k `mod` (k + 1) = k)%nat) ->
  Utils.shuffle_loop random i todo array = array.
Proof.
  revert i array. induction todo as [|todo IH]; intros i array Hid; [done|].
  cbn [Utils.shuffle_loop]. rewrite Hid, exchange_same by lia.
  apply IH. intros k ?. apply Hid. lia.
Qed.

Lemma shuffle_loop_picking p i todo array :
  (i <= p < i + todo)%nat ->
  Utils.shuffle_loop (Utils.picking p) i todo array =
    Utils.exchange 0 p array.
Proof.
  revert i array. induction todo as [|todo IH]; intros i array Hp; [lia|].
  cbn [Utils.shuffle_loop]. destruct (decide (i = p)) as [->|Hne].
  - unfold Utils.picking at 2. rewrite decide_True by done.
    rewrite Nat.Div0.mod_0_l. apply shuffle_loop_still.
    intros k Hk. unfold Utils.picking. rewrite decide_False by lia.
    apply Nat.mod_small. lia.
  - unfold Utils.picking at 2. rewrite decide_False by done.
    rewrite Nat.mod_small, exchange_same by lia. apply IH. lia.
Qed.

Lemma exchange_length j i array :
  length (Utils.exchange j i array) = length array.
Proof. apply Permutation_length, exchange_Permutation. Qed.

Lemma exchange_lookup j i array x y :
  array !! j = Some x -> array !! i = Some y ->
  Utils.exchange j i array !! i = Some x /\
  Utils.exchange j i array !! j = Some y.
Proof.
  intros Hj Hi. unfold Utils.exchange. rewrite Hj, Hi.
  pose proof (lookup_lt_Some _ _ _ Hj). pose proof (lookup_lt_Some _ _ _ Hi).
  destruct (decide (i = j)) as [->|Hne].
  - assert (x = y) as -> by congruence.
    split; by rewrite list_lookup_insert_eq by (by rewrite length_insert).
  - split.
    + by rewrite list_lookup_insert_eq by (by rewrite length_insert).
    + rewrite list_lookup_insert_ne by done.
      by rewrite list_lookup_insert_eq.
Qed.

Lemma exchange_involutive j i array :
  (j < length array)%nat -> (i < length array)%nat ->
  Utils.exchange j i (Utils.exchange j i array) = array.
Proof.
  intros Hj Hi.
  destruct (lookup_lt_is_Some_2 array j Hj) as [x Hx].
  destruct (lookup_lt_is_Some_2 array i Hi) as [y Hy].
  destruct (exchange_lookup j i array x y Hx Hy) as [Hi' Hj'].
  unfold Utils.exchange at 1. rewrite Hi', Hj'.
  unfold Utils.exchange. rewrite Hx, Hy.
  apply list_eq. intros k.
  destruct (decide (k = i)) as [->|Hki].
  - rewrite list_lookup_insert_eq by (by rewrite !length_insert). done.
  - rewrite list_lookup_insert_ne by done.
    destruct (decide (k = j)) as [->|Hkj].
    + rewrite list_lookup_insert_eq by (by rewrite !length_insert). done.
    + by rewrite !list_lookup_insert_ne by done.
Qed.

(** The loop reads the draws of its own iterations only, and leaves the
    elements beyond them alone. *)
Lemma shuffle_loop_ext random1 random2 i todo array :
  (forall k, (i <= k < i + todo)%nat -> random1 k = random2 k) ->
  Utils.shuffle_loop random1 i todo array =
  Utils.shuffle_loop random2 i todo array.
Proof.
  revert i array. induction todo as [|todo IH]; intros i array Heq; [done|].
  cbn [Utils.shuffle_loop]. rewrite (Heq i) by lia.
  apply IH. intros k ?. apply Heq. lia.
Qed.

Lemma exchange_app j i array rest :
  (j < length array)%nat -> (i < length array)%nat ->
  Utils.exchange j i (array ++ rest) = Utils.exchange j i array ++ rest.
Proof.
  intros Hj Hi. unfold Utils.exchange.
  rewrite !lookup_app_l by done.
  destruct (array !! j) as [x|] eqn:Hx; [|done].
  destruct (array !! i) as [y|] eqn:Hy; [|done].
  rewrite insert_app_l by done.
  by rewrite insert_app_l by (by rewrite length_insert).
Qed.

Lemma shuffle_loop_app random i todo array rest :
  (i + todo <= length array)%nat ->
  Utils.shuffle_loop random i todo (array ++ rest) =
  Utils.shuffle_loop random i todo array ++ rest.
Proof.
  revert i array. induction todo as [|todo IH]; intros i array Hlen; [done|].
  cbn [Utils.shuffle_loop].
  assert (random i `mod` (i + 1) < i + 1)%nat
    by (apply Nat.mod_upper_bound; lia).
  rewrite exchange_app by lia. apply IH. rewrite exchange_length. lia.
Qed.

Lemma shuffle_loop_last random i todo array :
  Utils.shuffle_loop random i (S todo) array =
  Utils.exchange (random (i + todo) `mod` (i + todo + 1))%nat (i + todo)
    (Utils.shuffle_loop random i todo array).
Proof.
  revert i array. induction todo as [|todo IH]; intros i array.
  - cbn [Utils.shuffle_loop]. by rewrite Nat.add_0_r.
  - cbn [Utils.shuffle_loop] in *. rewrite IH.
    by replace (S i + todo)%nat with (i + S todo)%nat by lia.
Qed.

(** Every arrangement of the array comes out of some draws. *)
Lemma shuffle_loop_reaches n array arranged :
  length array = n -> arranged ≡ₚ array ->
  exists random, Utils.shuffle_loop random 0 n array = arranged.
Proof.
  revert array arranged. induction n as [|n IH]; intros array arranged Hlen Hperm.
  - destruct array; [|done]. apply Permutation_nil_r in Hperm as ->.
    by exists (fun i => i).
  - destruct (decide (array = [])) as [->|Hne]; [done|].
    destruct (exists_last Hne) as (front & x & ->).
    rewrite length_app in Hlen. simpl in Hlen.
    assert (x ∈ arranged) as (j & Hj)%list_elem_of_lookup_1
      by (rewrite Hperm; set_solver).
    assert (length arranged = S n) as Hlen'
      by (rewrite Hperm, length_app; simpl; lia).
    pose proof (lookup_lt_Some _ _ _ Hj) as Hjn.
    destruct (lookup_lt_is_Some_2 arranged n) as [y Hy]; [lia|].
    destruct (exchange_lookup j n arranged x y Hj Hy) as [Hlast _].
    set (swapped := Utils.exchange j n arranged) in *.
    assert (length swapped = S n) as Hlens
      by (unfold swapped; by rewrite exchange_length).
    assert (swapped = take n swapped ++ [x]) as Hswapped.
    { rewrite <- (take_drop n swapped) at 1. f_equal.
      apply list_eq. intros [|k].
      - by rewrite lookup_drop, Nat.add_0_r.
      - rewrite lookup_drop. simpl. rewrite !lookup_ge_None_2; [done|simpl; lia|lia]. }
    destruct (IH front (take n swapped)) as [random0 Hrandom0]; [lia| |].
    { apply (Permutation_app_inv_r [x]). rewrite <- Hswapped, <- Hperm.
      apply exchange_Permutation. }
    exists (fun i => if decide (i = n) then j else random0 i).
    rewrite shuffle_loop_last. simpl.
    rewrite decide_True by done.
    rewrite (shuffle_loop_ext _ random0)
      by (intros k ?; rewrite decide_False by lia; done).
    rewrite shuffle_loop_app by lia. rewrite Hrandom0, <- Hswapped.
    rewrite Nat.mod_small by lia.
    unfold swapped. apply exchange_involutive; lia.
Qed.

(** X10.  [shuffle] loses and repeats nothing, and excludes no order:
    whatever the draws, the array it leaves is a permutation of the one it
    was given, and every permutation of that array is the outcome of some
    draws. *)
Theorem shuffle_rearranges array :
  (forall random,
     Utils.shuffle random array ≡ₚ array /\
     length (Utils.shuffle random array) = length array) /\
  (forall arranged, arranged ≡ₚ array ->
     exists random, Utils.shuffle random array = arranged).
Proof.
  split.
  - intros random. split; [apply shuffle_Permutation|apply shuffle_length].
  - intros arranged Hperm. by apply shuffle_loop_reaches.
Qed.
End DrawFacts.

Section RngMore.
Context {T : Type}.
Implicit Types (dict : gmap N T) (chances : list N).

Lemma fill_positive i chances k :
  k ∈ Utils.fill i chances <->
  exists c, chances !! (k - i)%nat = Some c /\ c <> 0%N /\ (i <= k)%nat.
Proof.
  revert i. induction chances as [|c rest IH]; intros i; simpl.
  - split; [by intros ?%elem_of_nil|by intros (? & ? & _)].
  - rewrite elem_of_app, elem_of_replicate, IH. split.
    + intros [[-> Hc]|(c' & Hc' & ? & ?)].
      * exists c. rewrite Nat.sub_diag. split_and!; [done|lia|done].
      * exists c'. replace (k - i)%nat with (S (k - S i)) by lia.
        split_and!; [done..|lia].
    + intros (c' & Hc' & ? & ?). destruct (decide (k = i)) as [->|].
      * left. rewrite Nat.sub_diag in Hc'. simpl in Hc'. split; [done|].
        injection Hc' as ->. lia.
      * right. exists c'. replace (k - i)%nat with (S (k - S i)) in Hc' by lia.
        split_and!; [done..|lia].
Qed.

(** X11.  The sampler draws the entries with a positive chance, and all of
    them: the chance it returns is never 0, and when the chances sum to
    100 every entry with a positive chance is returned for some draws. *)
Theorem rng_draws dict :
  (forall random v c,
     Utils.rng random dict =
       Return {| Utils.value := Some v; Utils.chance := Some c |} ->
     c <> 0%N) /\
  (Utils.sum_chances dict = 100%N ->
   forall c v, dict !! c = Some v -> c <> 0%N ->
     exists random,
       Utils.rng random dict =
         Return {| Utils.value := Some v; Utils.chance := Some c |}).
Proof.
  split.
  - intros random v c Hreturn.
    assert (Utils.sum_chances dict = 100%N) as Hsum.
    { destruct (decide (Utils.sum_chances dict = 100%N)) as [|Hne]; [done|].
      apply (rng_throws_iff random) in Hne. by rewrite Hreturn in Hne. }
    destruct (rng_sum_100 random dict Hsum)
      as (_ & i & c' & v' & H0 & Hc & _ & Hr & _).
    rewrite Hr in Hreturn. injection Hreturn as _ <-.
    assert (i ∈ Utils.fill 0 (Utils.Object_entries dict).*1) as Hin.
    { eapply shuffle_elem_of, list_elem_of_lookup_2, H0. }
    apply fill_positive in Hin as (c'' & Hc'' & ? & _).
    rewrite Nat.sub_0_r in Hc''. congruence.
  - intros Hsum c v Hcv Hc.
    apply Object_entries_lookup, list_elem_of_lookup_1 in Hcv as [j Hj].
    assert ((Utils.Object_entries dict).*1 !! j = Some c) as Hchance
      by (by rewrite list_lookup_fmap, Hj).
    assert ((Utils.Object_entries dict).*2 !! j = Some v) as Hvalue
      by (by rewrite list_lookup_fmap, Hj).
    assert (j ∈ Utils.fill 0 (Utils.Object_entries dict).*1)
      as [p Hp]%list_elem_of_lookup_1.
    { apply fill_positive. exists c. rewrite Nat.sub_0_r.
      split_and!; [done..|lia]. }
    exists (Utils.picking p).
    assert (Utils.rng_flat (Utils.picking p) dict !! 0%nat = Some j) as Hfirst.
    { unfold Utils.rng_flat, Utils.shuffle.
      rewrite shuffle_loop_picking by (apply lookup_lt_Some in Hp; lia).
      by apply exchange_first. }
    rewrite sum_chances_total in Hsum. unfold Utils.rng.
    destruct ((Utils.Object_entries dict).*1) as [|c0 rest] eqn:Hkeys;
      [done|].
    rewrite reduce_add_total, Hsum. cbn [mbind result_bind]. simpl.
    rewrite Hfirst. simpl. by rewrite Hchance, Hvalue.
Qed.

Lemma filter_replicate_eq (n i j : nat) :
  length (filter (fun k => k = j) (replicate n i)) =
  if decide (i = j) then n else 0%nat.
Proof.
  induction n as [|n IH]; simpl; [by case_decide|].
  rewrite filter_cons. destruct (decide (i = j)) as [->|Hne]; simpl.
  - by rewrite IH.
  - done.
Qed.

Lemma fill_count i chances j :
  length (filter (fun k => k = j) (Utils.fill i chances)) =
  if decide (i <= j)%nat
  then N.to_nat (default 0%N (chances !! (j - i)%nat))
  else 0%nat.
Proof.
  revert i. induction chances as [|c rest IH]; intros i; simpl.
  - by case_decide.
  - rewrite filter_app, length_app, filter_replicate_eq, IH.
    destruct (decide (i = j)) as [->|Hne].
    + rewrite (decide_False (P := (S j <= j)%nat)) by lia.
      rewrite decide_True, Nat.sub_diag by lia. simpl. lia.
    + destruct (decide (i <= j)%nat).
      * rewrite (decide_True (P := (S i <= j)%nat)) by lia.
        by replace (j - i)%nat with (S (j - S i)) by lia.
      * by rewrite (decide_False (P := (S i <= j)%nat)) by lia.
Qed.

(** X12.  The weights are kept: whatever the draws, the entry at index
    [i] of the table holds exactly [chances[i]] of the positions of the
    shuffled array, so, with chances summing to 100, [chances[i]] in a
    hundred. *)
Theorem rng_flat_shares random dict i c :
  (Utils.Object_entries dict).*1 !! i = Some c ->
  length (filter (fun k => k = i) (Utils.rng_flat random dict)) = N.to_nat c.
Proof.
  intros Hc. unfold Utils.rng_flat.
  rewrite (Permutation_length
             (filter_Permutation _ _ _ (shuffle_Permutation random _))).
  rewrite fill_count, decide_True, Nat.sub_0_r, Hc by lia. done.
Qed.
End RngMore.

Lemma rng_flat_shares_witness :
  length (filter (fun k => k = 4%nat)
            (Utils.rng_flat (fun i => i) Utils.ranges)) = N.to_nat 65.
Proof.
  apply (rng_flat_shares (fun i => i) Utils.ranges 4 65%N).
  vm_compute. reflexivity.
Defined.

(** ** Recharging pulls *)

Section RechargeFacts.
Import Db.
Variable plusMinutes : Z -> Z -> Z.
Implicit Types (inventory : Inventory).

Lemma newPulls_range inventory now :
  0 <= newPulls inventory now /\
  (availablePulls inventory <= 5 ->
   availablePulls inventory + newPulls inventory now <= 5) /\
  (5 <= availablePulls inventory -> newPulls inventory now = 0).
Proof. unfold newPulls, MAX_PULLS. lia. Qed.

(** X13.  Recharging never takes from a budget within 99 and never lifts
    one over [MAX_PULLS]: an inventory with at most 5 pulls comes out with
    at least as many and at most 5, one with more comes out with what it
    had, capped at 99; and an inventory that is updated keeps a recharge
    timestamp exactly when it is left with fewer than 5 pulls. *)
Theorem recharged_pulls inventory now :
  (availablePulls inventory <= 5 ->
   availablePulls inventory
     <= pulls_after inventory (recharged plusMinutes inventory now) <= 5) /\
  (5 < availablePulls inventory ->
   pulls_after inventory (recharged plusMinutes inventory now) =
     Z.min 99 (availablePulls inventory)) /\
  (forall updated,
     recharged plusMinutes inventory now = Some updated ->
     (is_Some (rechargeTimestamp updated) <-> availablePulls updated < 5)).
Proof.
  pose proof (newPulls_range inventory now) as (Hpos & Hlow & Hfull).
  unfold pulls_after, recharged, MAX_PULLS.
  destruct (Z.eqb_spec (newPulls inventory now) (availablePulls inventory))
    as [Heq|Hne]; simpl.
  - split_and!; [lia|lia|done].
  - split_and!.
    + lia.
    + intros ?. rewrite Hfull by lia. by rewrite Z.add_0_r.
    + intros updated [= <-]. simpl.
      destruct (Z.leb_spec 5 (availablePulls inventory + newPulls inventory now));
        split; try lia; [by intros []|by eexists].
Qed.

(** X14.  A recharge that is due can be withheld.  A user below the
    maximum for whom 30 minutes or more have passed comes out of the round
    with the pulls they had exactly when they hold 1 pull between 30 and
    59 minutes after the timestamp, or 2 pulls between 60 and 89 minutes;
    [rechargePulls] then returns the inventory as it read it and writes
    nothing, whether it is to commit or not. *)
Theorem recharge_withheld inventory now :
  (availablePulls inventory < 5 /\
   30 <= Utils.diffInMinutes (since inventory now) now /\
   pulls_after inventory (recharged plusMinutes inventory now)
     = availablePulls inventory
   <->
   (availablePulls inventory = 1 \/ availablePulls inventory = 2) /\
   30 * availablePulls inventory
     <= Utils.diffInMinutes (since inventory now) now
     < 30 * availablePulls inventory + 30) /\
  (forall commit attempt,
     stored (attempt 0%nat) = inventory -> Db.now (attempt 0%nat) = now ->
     (availablePulls inventory = 1 \/ availablePulls inventory = 2) ->
     30 * availablePulls inventory
       <= Utils.diffInMinutes (since inventory now) now
       < 30 * availablePulls inventory + 30 ->
     rechargePulls plusMinutes commit attempt = Returned inventory false).
Proof.
  assert (0 <= Utils.diffInMinutes (since inventory now) now) as Hm
    by (unfold Utils.diffInMinutes; apply Z.div_pos; lia).
  assert (newPulls inventory now =
            Z.max 0 (Z.min (5 - availablePulls inventory)
                       (Utils.diffInMinutes (since inventory now) now / 30)))
    as Hnew.
  { unfold newPulls, MAX_PULLS, RECHARGE_MINS.
    by rewrite Z.quot_div_nonneg by lia. }
  set (m := Utils.diffInMinutes (since inventory now) now) in *.
  pose proof (Z.div_mod m 30 ltac:(lia)) as Hdiv.
  pose proof (Z.mod_pos_bound m 30 ltac:(lia)) as Hmod.
  assert ((availablePulls inventory = 1 \/ availablePulls inventory = 2) ->
          30 * availablePulls inventory <= m < 30 * availablePulls inventory + 30 ->
          recharged plusMinutes inventory now = None) as Hwithheld.
  { intros Hcur Hrange. unfold recharged. rewrite Hnew.
    assert (m / 30 = availablePulls inventory) as -> by lia.
    by rewrite (proj2 (Z.eqb_eq _ _)) by lia. }
  split.
  - split.
    + intros (Hcur & Hdue & Hsame). unfold pulls_after, recharged in Hsame.
      rewrite Hnew in Hsame.
      destruct (Z.eqb_spec (Z.max 0 (Z.min (5 - availablePulls inventory) (m / 30)))
                  (availablePulls inventory)) as [Heq|Hne];
        simpl in Hsame; lia.
    + intros [Hcur Hrange]. split_and!; [lia..|].
      unfold pulls_after. by rewrite Hwithheld.
  - intros commit attempt Hstored Hnow Hcur Hrange.
    unfold rechargePulls. cbn [rechargePulls_loop].
    by rewrite Hstored, Hnow, Hwithheld.
Qed.

Lemma rechargePulls_loop_KvError commit attempt retires left :
  rechargePulls_loop plusMinutes commit attempt retires left = KvError <->
  forall k, (retires <= k < retires + left)%nat ->
    retried plusMinutes commit (attempt k).
Proof.
  unfold retried.
  revert retires. induction left as [|left IH]; intros retires; simpl.
  - split; [intros _ k ?; lia|done].
  - destruct (recharged plusMinutes (stored (attempt retires))
                (Db.now (attempt retires))) as [updated|] eqn:Hstep.
    + destruct commit; simpl.
      * destruct (ok (attempt retires)) eqn:Hok.
        -- split; [done|]. intros Hall.
           destruct (Hall retires) as (_ & _ & ?); [lia|congruence].
        -- rewrite IH. split.
           ++ intros Hall k Hk. destruct (decide (k = retires)) as [->|].
              ** by rewrite Hstep, Hok.
              ** apply Hall. lia.
           ++ intros Hall k Hk. apply Hall. lia.
      * split; [done|]. intros Hall.
        by destruct (Hall retires) as (? & _); [lia|].
    + split; [done|]. intros Hall.
      destruct (Hall retires) as (_ & Hne & _); [lia|].
      by rewrite Hstep in Hne.
Qed.

Lemma rechargePulls_loop_first commit attempt retires left k :
  (retires <= k < retires + left)%nat ->
  (forall j, (retires <= j < k)%nat -> retried plusMinutes commit (attempt j)) ->
  ~ retried plusMinutes commit (attempt k) ->
  rechargePulls_loop plusMinutes commit attempt retires left =
    match recharged plusMinutes (stored (attempt k)) (Db.now (attempt k)) with
    | Some updated => Returned updated commit
    | None => Returned (stored (attempt k)) false
    end.
Proof.
  unfold retried.
  revert retires. induction left as [|left IH]; intros retires Hk Hbefore Hstop;
    [lia|].
  cbn [rechargePulls_loop].
  destruct (decide (retires = k)) as [->|Hlater].
  - destruct (recharged plusMinutes (stored (attempt k)) (Db.now (attempt k)))
      as [updated|]; [|done].
    destruct commit; [|done]. cbn [negb].
    destruct (ok (attempt k)); [done|]. by destruct Hstop.
  - destruct (Hbefore retires) as (-> & Hsome & ->); [lia|].
    destruct (recharged plusMinutes (stored (attempt retires))
                (Db.now (attempt retires))); [|done].
    cbn [negb]. apply IH; [lia| |done].
    intros j Hj. apply Hbefore. lia.
Qed.

(** X15.  [rechargePulls] tries five rounds at most and stops at the
    first that does not end in a refused commit.  It throws [KvError]
    exactly when each of the five rounds is to commit an update and the
    commit is refused.  Otherwise, for the first round that is not such,
    it returns the inventory as read when that round has nothing to
    update, and the updated inventory when it has: written when [commit]
    is set, not written when it is not. *)
Theorem rechargePulls_outcome commit attempt :
  (rechargePulls plusMinutes commit attempt = KvError <->
   forall k, (k < 5)%nat -> retried plusMinutes commit (attempt k)) /\
  (forall k,
     (k < 5)%nat ->
     (forall j, (j < k)%nat -> retried plusMinutes commit (attempt j)) ->
     ~ retried plusMinutes commit (attempt k) ->
     rechargePulls plusMinutes commit attempt =
       match recharged plusMinutes (stored (attempt k)) (Db.now (attempt k)) with
       | Some updated => Returned updated commit
       | None => Returned (stored (attempt k)) false
       end).
Proof.
  unfold rechargePulls. split.
  - rewrite rechargePulls_loop_KvError. split.
    + intros Hall k Hk. apply Hall. lia.
    + intros Hall k Hk. apply Hall. lia.
  - intros k Hk Hbefore Hstop.
    apply rechargePulls_loop_first; [lia| |done].
    intros j Hj. apply Hbefore. lia.
Qed.
End RechargeFacts.

(** ** Cutting a string short *)

Section TruncateFacts.
Import Utils.
Implicit Types (s whole : list ascii) (c : ascii) (n : Z).

Lemma lastIndexOf_range s c :
  lastIndexOf s c = -1 \/
  (0 <= lastIndexOf s c < Z.of_nat (length s) /\
   s !! Z.to_nat (lastIndexOf s c) = Some c).
Proof.
  induction s as [|x s IH]; [by left|]. cbn [lastIndexOf].
  destruct (Z.leb_spec 0 (lastIndexOf s c)) as [Hpos|Hneg].
  - right. destruct IH as [?|[? Hat]]; [lia|].
    rewrite length_cons, Z2Nat.inj_add, Nat.add_1_r by lia. split; [lia|done].
  - destruct (Ascii.eqb_spec x c) as [->|?]; [|by left].
    right. rewrite length_cons. split; [lia|done].
Qed.

Lemma lastIndexOf_absent s c : lastIndexOf s c = -1 -> c ∉ s.
Proof.
  induction s as [|x s IH]; [intros _; apply not_elem_of_nil|].
  cbn [lastIndexOf].
  destruct (Z.leb_spec 0 (lastIndexOf s c)) as [Hpos|Hneg]; [lia|].
  destruct (Ascii.eqb_spec x c) as [->|?]; [done|]. intros _.
  apply not_elem_of_cons. split; [done|]. apply IH.
  destruct (lastIndexOf_range s c) as [?|[? _]]; [done|lia].
Qed.

(** What [s.slice(0, s.lastIndexOf(c))] keeps: what comes before the last
    [c], or all but the last unit when there is no [c]. *)
Lemma slice_lastIndexOf s c :
  slice s (lastIndexOf s c) `prefix_of` s /\
  (length (slice s (lastIndexOf s c)) <= pred (length s))%nat /\
  (s !! length (slice s (lastIndexOf s c)) = Some c \/
   (length (slice s (lastIndexOf s c)) = pred (length s) /\ c ∉ s)).
Proof.
  unfold slice.
  destruct (lastIndexOf_range s c) as [Hnone|[Hin Hat]].
  - rewrite Hnone. change (-1 <? 0) with true. cbn match.
    split; [apply prefix_take|]. rewrite length_take.
    split; [lia|]. right. split; [lia|by apply lastIndexOf_absent].
  - rewrite (proj2 (Z.ltb_ge _ _)) by lia.
    split; [apply prefix_take|]. rewrite length_take.
    rewrite Nat.min_l by lia. split; [lia|by left].
Qed.

Lemma truncate_short whole n :
  Z.of_nat (length whole) <= n -> truncate (Some whole) n = Some whole.
Proof.
  intros Hfits. unfold truncate.
  rewrite (proj2 (Z.ltb_ge _ _)) by done. by rewrite andb_false_r.
Qed.

Lemma truncate_long whole n :
  whole <> [] -> n < Z.of_nat (length whole) ->
  truncate (Some whole) n =
    Some (slice (substring whole (n - 2))
            (lastIndexOf (substring whole (n - 2)) " ")
          ++ String.list_ascii_of_string "...").
Proof.
  intros Hne Hlong. unfold truncate.
  assert (truthy (Some whole) = true) as -> by (by destruct whole).
  by rewrite (proj2 (Z.ltb_lt _ _)) by done.
Qed.

Lemma truncate_truthy str n :
  truthy str = true -> truthy (truncate str n) = true.
Proof.
  destruct str as [whole|]; [|done]. intros Htruthy.
  destruct (Z.le_gt_cases (Z.of_nat (length whole)) n).
  - by rewrite truncate_short.
  - rewrite truncate_long by (by destruct whole || lia).
    by destruct (slice _ _).
Qed.

Lemma truncate_length str n r :
  3 <= n -> truncate str n = Some r -> Z.of_nat (length r) <= n.
Proof.
  intros Hn. destruct str as [whole|]; [|done].
  destruct (Z.le_gt_cases (Z.of_nat (length whole)) n).
  - rewrite truncate_short by done. by intros [= <-].
  - destruct (decide (whole = [])) as [->|Hne]; [simpl in *; lia|].
    rewrite truncate_long by (done || lia). intros [= <-].
    pose proof (slice_lastIndexOf (substring whole (n - 2)) " ") as (_ & Hlen & _).
    rewrite length_app. unfold substring in Hlen at 3.
    rewrite length_take in Hlen. simpl. lia.
Qed.

(** X16.  A string longer than [n] is cut to some of its first units
    followed by three dots.  What is kept stops before the last space
    among the first [n - 2] units, or, when there is no space among them,
    is the first [n - 3] units; it never has more than [n - 3] units. *)
Theorem truncate_cut whole n :
  whole <> [] -> n < Z.of_nat (length whole) ->
  exists kept,
    truncate (Some whole) n = Some (kept ++ String.list_ascii_of_string "...") /\
    kept `prefix_of` whole /\
    Z.of_nat (length kept) <= Z.max 0 (n - 3) /\
    (whole !! length kept = Some " "%char \/
     (Z.of_nat (length kept) = Z.max 0 (n - 3) /\
      " "%char ∉ substring whole (n - 2))).
Proof.
  intros Hne Hlong. eexists. split; [by apply truncate_long|].
  pose proof (slice_lastIndexOf (substring whole (n - 2)) " ")
    as (Hprefix & Hlen & Hat).
  set (kept := slice _ _) in *.
  assert (length (substring whole (n - 2)) = Z.to_nat (n - 2)) as Hs
    by (unfold substring; rewrite length_take; lia).
  rewrite Hs in Hlen, Hat. split_and!.
  - etrans; [done|apply prefix_take].
  - lia.
  - destruct Hat as [Hat|[Heq Hnone]]; [left|right; split; [lia|done]].
    unfold substring in Hat. apply lookup_take_Some in Hat. by destruct Hat.
Qed.

(** X17.  From 3 on, [truncate] keeps its word: what it returns has at
    most [n] units, so that truncating again changes nothing. *)
Theorem truncate_fits str n :
  3 <= n ->
  (forall r, truncate str n = Some r -> Z.of_nat (length r) <= n) /\
  truncate (truncate str n) n = truncate str n.
Proof.
  intros Hn. split; [intros r; by apply truncate_length|].
  destruct (truncate str n) as [r|] eqn:Hr; [|done].
  apply truncate_short. by eapply truncate_length.
Qed.

Lemma truncate_cut_witness :
  String.list_ascii_of_string "a tale told twice over" <> [] /\
  exists kept,
    truncate (Some (String.list_ascii_of_string "a tale told twice over")) 12
      = Some (kept ++ String.list_ascii_of_string "...") /\
    kept `prefix_of` String.list_ascii_of_string "a tale told twice over" /\
    Z.of_nat (length kept) <= Z.max 0 (12 - 3) /\
    (String.list_ascii_of_string "a tale told twice over" !! length kept
       = Some " "%char \/
     (Z.of_nat (length kept) = Z.max 0 (12 - 3) /\
      " "%char ∉ substring
                   (String.list_ascii_of_string "a tale told twice over")
                   (12 - 2))).
Proof.
  split; [done|].
  apply (truncate_cut (String.list_ascii_of_string "a tale told twice over") 12);
    [done|simpl; lia].
Defined.

Lemma truncate_fits_witness :
  (forall r,
     truncate (Some (String.list_ascii_of_string "a tale told twice over")) 12
       = Some r -> Z.of_nat (length r) <= 12) /\
  truncate
    (truncate (Some (String.list_ascii_of_string "a tale told twice over")) 12)
    12
  = truncate (Some (String.list_ascii_of_string "a tale told twice over")) 12.
Proof.
  apply (truncate_fits
           (Some (String.list_ascii_of_string "a tale told twice over")) 12).
  lia.
Defined.
End TruncateFacts.

(** ** Identifiers and names *)

Section IdFacts.
Import Packs.
Implicit Types (literal packId rest s : list ascii) (c : ascii).

Lemma word_not_colon c : word c = true -> Ascii.eqb c ":" = false.
Proof. destruct (Ascii.eqb_spec c ":") as [->|]; [by vm_compute|done]. Qed.

Lemma words_forallb s : words s = true <-> s <> [] /\ forallb word s = true.
Proof. destruct s; [by split; [|intros []]|]. by split; [|intros []]. Qed.

Lemma break_colon packId rest :
  forallb word packId = true ->
  break (packId ++ ":"%char :: rest) = (packId, Some rest).
Proof.
  induction packId as [|c packId IH]; [done|].
  cbn [forallb app break]. intros [Hc Hall]%andb_true_iff.
  by rewrite (word_not_colon c), IH.
Qed.

Lemma break_words s : forallb word s = true -> break s = (s, None).
Proof.
  induction s as [|c s IH]; [done|].
  cbn [forallb break]. intros [Hc Hall]%andb_true_iff.
  by rewrite (word_not_colon c), IH.
Qed.

Lemma break_Some literal packId rest :
  break literal = (packId, Some rest) -> literal = packId ++ ":"%char :: rest.
Proof.
  revert packId. induction literal as [|c literal IH]; intros packId; [done|].
  cbn [break]. destruct (Ascii.eqb_spec c ":") as [->|_].
  - by intros [= <- <-].
  - destruct (break literal) as [before after]. intros [= <- ->].
    by rewrite (IH before).
Qed.

Lemma exec_Some literal packId rest :
  exec literal = Some (packId, rest) <->
  literal = packId ++ ":"%char :: rest /\
  words packId = true /\ words rest = true.
Proof.
  unfold exec. split.
  - destruct (break literal) as [before [after|]] eqn:Hbreak; [|done].
    destruct (words before && words after) eqn:Hwords; [|done].
    intros [= <- <-]. apply andb_true_iff in Hwords.
    split; [by apply break_Some|done].
  - intros (-> & Hpack & Hrest).
    rewrite break_colon by (by apply words_forallb).
    by rewrite Hpack, Hrest.
Qed.

Lemma exec_words literal : words literal = true -> exec literal = None.
Proof.
  intros [_ Hall]%words_forallb. unfold exec. by rewrite break_words.
Qed.

(** X18.  [parseId] reads an identifier back from its two parts: a pack
    and an id made of the units of the class come back from the literal
    that joins them with a colon, whatever the default pack; an id alone
    comes back under the default pack when there is one.  Nothing else is
    parsed: a literal that yields a pair is one of these two, and the two
    components are there or missing together. *)
Theorem parseId_round_trip literal defaultPackId :
  (forall packId rest,
     words packId = true -> words rest = true ->
     parseId (packId ++ ":"%char :: rest) defaultPackId
       = (Some packId, Some rest)) /\
  (words literal = true -> Utils.truthy defaultPackId = true ->
   parseId literal defaultPackId = (defaultPackId, Some literal)) /\
  (forall packId rest,
     parseId literal defaultPackId = (Some packId, Some rest) ->
     words rest = true /\
     ((literal = packId ++ ":"%char :: rest /\ words packId = true) \/
      (literal = rest /\ defaultPackId = Some packId /\ packId <> []))) /\
  (is_Some (parseId literal defaultPackId).1
   <-> is_Some (parseId literal defaultPackId).2).
Proof.
  split_and!.
  - intros packId rest Hpack Hrest. unfold parseId.
    by rewrite (proj2 (exec_Some _ packId rest)).
  - intros Hwords Hdefault. unfold parseId.
    by rewrite exec_words, Hdefault, Hwords.
  - intros packId rest. unfold parseId.
    destruct (exec literal) as [[p r]|] eqn:Hexec.
    + intros [= -> ->]. apply exec_Some in Hexec as (? & ? & ?).
      split; [done|by left].
    + destruct (Utils.truthy defaultPackId) eqn:Hdefault; [|done].
      destruct (words literal) eqn:Hwords; [|done]. simpl.
      intros [= -> ->]. split; [done|right].
      split_and!; [done..|]. by intros ->.
  - unfold parseId. destruct (exec literal) as [[p r]|].
    + by split; eexists.
    + destruct (Utils.truthy defaultPackId && words literal) eqn:Hcase; simpl.
      * apply andb_true_iff in Hcase as [Hdefault _].
        destruct defaultPackId; [by split; eexists|done].
      * by split; intros [? ?].
Qed.

Lemma foldl_Set {A} `{EqDecision A} (set array : list A) :
  let from :=
    foldl (fun set x => if decide (x ∈ set) then set else set ++ [x])
      set array in
  (NoDup set -> NoDup from) /\
  (forall x, x ∈ from <-> x ∈ set \/ x ∈ array) /\
  head from = head (set ++ array).
Proof.
  revert set. induction array as [|a array IH]; intros set; cbn [foldl].
  - rewrite app_nil_r. split_and!; [done| |done].
    intros x. rewrite elem_of_nil. tauto.
  - destruct (decide (a ∈ set)) as [Hin|Hout].
    + destruct (IH set) as (Hdup & Hel & Hhead). split_and!; [done| |].
      * intros x. rewrite Hel, elem_of_cons.
        split; [tauto|]. intros [?|[->|?]]; tauto.
      * rewrite Hhead. destruct set; [by apply elem_of_nil in Hin|done].
    + destruct (IH (set ++ [a])) as (Hdup & Hel & Hhead). split_and!.
      * intros Hset. apply Hdup, NoDup_app. split_and!; [done| |].
        -- intros x ? ->%list_elem_of_singleton. done.
        -- apply NoDup_singleton.
      * intros x. rewrite Hel, elem_of_app, list_elem_of_singleton, elem_of_cons.
        tauto.
      * by rewrite Hhead, <- app_assoc.
Qed.

Lemma Array_from_Set_spec {A} `{EqDecision A} (array : list A) :
  NoDup (Array_from_Set array) /\
  (forall x, x ∈ Array_from_Set array <-> x ∈ array) /\
  head (Array_from_Set array) = head array.
Proof.
  destruct (foldl_Set [] array) as (Hdup & Hel & Hhead). split_and!.
  - apply Hdup, NoDup_nil_2.
  - intros x. unfold Array_from_Set. rewrite Hel, elem_of_nil. tauto.
  - done.
Qed.

Lemma filter_nil_Forall {A} (P : A -> Prop) `{!forall x, Decision (P x)}
    (l : list A) :
  filter P l = [] <-> Forall (fun x => ~ P x) l.
Proof.
  induction l as [|x l IH]; [by split|].
  rewrite Forall_cons, <- IH. destruct (decide (P x)).
  - rewrite filter_cons_True by done. by split; [|intros []].
  - rewrite filter_cons_False by done. tauto.
Qed.

(** X19.  [aliasToArray] lists every name once, and only names to show:
    no two entries are equal, each is a string that is there and is not
    empty, of at most [max] units when [max] is 3 or more; the English
    name, cut as [max] asks, comes first when there is one; and the array
    is empty exactly when the alias has no name that is not empty. *)
Theorem aliasToArray_names alias max :
  NoDup (aliasToArray alias max) /\
  (forall name, name ∈ aliasToArray alias max ->
     exists s, name = Some s /\ s <> [] /\
       forall n, max = Some n -> 3 <= n -> Z.of_nat (length s) <= n) /\
  (Utils.truthy (english alias) = true ->
   head (aliasToArray alias max) = Some (shortened max (english alias))) /\
  (aliasToArray alias max = [] <->
   Utils.truthy (english alias) = false /\
   Utils.truthy (romaji alias) = false /\
   Utils.truthy (native alias) = false /\
   Forall (fun s => s = []) (default [] (alternative alias))).
Proof.
  unfold aliasToArray. split_and!.
  - apply Array_from_Set_spec.
  - intros name Hname.
    destruct (Array_from_Set_spec
      (shortened max <$> filter (fun str => Utils.truthy str = true) (names alias)))
      as (_ & Hel & _).
    apply Hel in Hname. clear Hel.
    apply list_elem_of_fmap in Hname as (str & -> & Hstr).
    apply list_elem_of_filter in Hstr as [Htruthy _].
    assert (Utils.truthy (shortened max str) = true) as Hshort.
    { unfold shortened. destruct max as [n|]; [|done].
      destruct (n =? 0); [done|]. by apply truncate_truthy. }
    destruct (shortened max str) as [[|c s]|] eqn:Hs; try done.
    exists (c :: s). split_and!; [done..|].
    intros n -> Hn. unfold shortened in Hs.
    rewrite (proj2 (Z.eqb_neq n 0)) in Hs by lia.
    by eapply truncate_length.
  - intros Henglish. destruct (Array_from_Set_spec
      (shortened max <$> filter (fun str => Utils.truthy str = true) (names alias)))
      as (_ & _ & ->).
    unfold names. cbn [app]. by rewrite filter_cons_True.
  - destruct (Array_from_Set_spec
      (shortened max <$> filter (fun str => Utils.truthy str = true) (names alias)))
      as (_ & _ & Hhead).
    rewrite <- head_None, Hhead, head_None.
    assert (forall l : list (option (list ascii)),
              shortened max <$> l = [] <-> l = []) as ->
      by (by intros [|? ?]).
    rewrite filter_nil_Forall. unfold names.
    rewrite Forall_app, !Forall_cons, Forall_fmap.
    assert (forall str, ~ Utils.truthy str = true <-> Utils.truthy str = false)
      as Hnot by (intros str; by destruct (Utils.truthy str)).
    rewrite !Hnot.
    assert (Forall ((fun str => ~ Utils.truthy str = true) ∘ Some)
              (default [] (alternative alias))
            <-> Forall (fun s => s = []) (default [] (alternative alias)))
      as -> by (apply Forall_proper; [intros [|? ?]; by split|done]).
    split; [intros ((? & ? & ? & _) & ?)|intros (? & ? & ? & ?)]; by split_and!.
Qed.
End IdFacts.
